(** * storelet: the mutation queue and flush scheduler of [createStore]

    A shallow embedding of [createStore] (the single source module of the
    package) and the properties of its queue, drain loop, completion
    promises and change listener.

    The three libraries the module imports are not part of the sources and
    are modelled by what the module observes of them:
    - mutative's [create(base, recipe, opts)]: the recipe is run on a draft
      of [base]; the finalised draft is the new state, and with
      [enablePatches] the changes it made to [base] come back as patches
      (an assignment of the value already there is no change);
    - p-defer's [pDefer()]: a fresh pending promise, settled by the first
      [resolve];
    - React's [useState(init)] (lazy initialiser run on the first render of
      a component instance, later renders read the value last set) and
      [useContext] (the nearest provider's value, else the default).

    User code is modelled by what it does to the store: a mutator or the
    listener returns or throws, and may call [update] while it runs, through
    the closure of the context object whose loop runs it ([flush]) or
    through the closure of another context object of the store, left by an
    earlier render or belonging to another component ([flush_via]).  Neither
    [deferredPromise.resolve] nor [setState] calls back synchronously:
    promise reactions run in a later microtask and React schedules the
    render.  The [while] loop of [flush] need not terminate (a step may
    enqueue another for ever), so [flush] takes fuel, and a statement that
    a call returns gives the fuel that suffices. *)

From Stdlib Require Import ZArith Lia String Ascii.
From stdpp Require Import base list.

Set Warnings "-register-all".

(** ** Data model *)

Section Store.

(** [State] is the caller-chosen type parameter of [createStore<State>];
    [Patch] is mutative's patch type. *)
Context {State Patch : Type}.

(** What a call into user code (a mutator or the listener) does to the
    store besides its result: the [update(...)] calls it issues while it
    runs, in order.  The description does not say which [update] closure
    the user code holds, that is to which context object its calls go:
    the engine that runs the user code fixes it (see [flush_rec],
    [flush] and [flush_via]). *)
Definition Calls (M : Type) : Type := list (list M).

(** Result of running [mutator(draft, oldState)] inside [create]: either
    the mutator throws, or it returns and the draft is finalised into
    [draft]; [writes] are the patches the engine has for the step, the
    changes from the base to [draft]. *)
Inductive Outcome (M : Type) : Type :=
| Throws (calls : Calls M)
| Returns (draft : State) (writes : list Patch) (calls : Calls M).
Arguments Throws {M} calls.
Arguments Returns {M} draft writes calls.

(** [type Mutator<State> = (state: Draft<State>, oldState: State) => void].
    The first argument is the value the draft is a view of. *)
Inductive Mutator : Type :=
| Mut (run : State -> State -> Outcome Mutator).

Definition run (m : Mutator) : State -> State -> Outcome Mutator :=
  match m with Mut f => f end.

(** [type ListenData<State> = { newState, oldState, patches }]. *)
Record ListenData : Type := mkListenData {
  newState : State;
  oldState : State;
  patches : list Patch
}.

(** What the listener callback does when called. *)
Inductive Reaction : Type :=
| Raises (calls : Calls Mutator)
| Completes (calls : Calls Mutator).

Definition Listener : Type := ListenData -> Reaction.

(** [interface MutatorQueueItem<State>]; a deferred promise is named by its
    allocation index. *)
Record MutatorQueueItem : Type := mkItem {
  mutator : Mutator;
  deferredPromise : option nat
}.

(** The [setState] field: the no-op of [ContextBase], or the setter that
    React's [useState] returned for component instance [inst]. *)
Inductive Setter : Type :=
| Noop
| Dispatch (inst : nat).

(** The by-value fields of [interface StoreContext<State>].  The fifth
    data field, [mutatorsQueue], is a reference: every context object of a
    store is made by spreading [ContextBase], so all of them alias the one
    array, which lives in [World] below. *)
Record StoreContext : Type := mkContext {
  state : State;
  hasProvider : bool;
  setState : Setter;
  isFlushing : bool
}.

(** The state of a promise; nothing in the module rejects one. *)
Inductive Promise : Type :=
| Pending
| Fulfilled (value : State)
| Rejected.

(** Effects in program order. *)
Inductive Event : Type :=
| EvCreate (base old : State) (enablePatches : bool)
    (* create(base, draft => mutator(draft, old), {enablePatches}) entered *)
| EvListen (data : ListenData)           (* listen(data) called *)
| EvAssign (s : State)                   (* this.state = s *)
| EvResolve (p : nat) (value : State)    (* deferredPromise.resolve(value) *)
| EvSetState (s : State).                (* this.setState(s) *)

(** Everything one store instance can touch.  [this] is the context object
    the methods are invoked on; [others] are the context objects of the
    store that are not in use: the default value of the React context and
    the objects that earlier renders built, which closures handed out by
    [useStore] in those renders still hold. *)
Record World : Type := mkWorld {
  this : StoreContext;
  mutatorsQueue : list MutatorQueueItem;
  promises : list Promise;
  hooks : list (option State);   (* useState cell per mounted instance *)
  reads : nat;                   (* evaluations of a producer initialState *)
  trace : list Event;
  others : list StoreContext
}.

(** Field assignments. *)
Definition set_this (c : StoreContext) (w : World) : World :=
  mkWorld c (mutatorsQueue w) (promises w) (hooks w) (reads w) (trace w)
          (others w).
Definition set_queue (q : list MutatorQueueItem) (w : World) : World :=
  mkWorld (this w) q (promises w) (hooks w) (reads w) (trace w) (others w).
Definition set_promises (ps : list Promise) (w : World) : World :=
  mkWorld (this w) (mutatorsQueue w) ps (hooks w) (reads w) (trace w)
          (others w).
Definition set_hooks (hs : list (option State)) (w : World) : World :=
  mkWorld (this w) (mutatorsQueue w) (promises w) hs (reads w) (trace w)
          (others w).
Definition set_reads (n : nat) (w : World) : World :=
  mkWorld (this w) (mutatorsQueue w) (promises w) (hooks w) n (trace w)
          (others w).
Definition log (e : Event) (w : World) : World :=
  mkWorld (this w) (mutatorsQueue w) (promises w) (hooks w) (reads w)
          (trace w ++ [e]) (others w).
Definition set_others (cs : list StoreContext) (w : World) : World :=
  mkWorld (this w) (mutatorsQueue w) (promises w) (hooks w) (reads w)
          (trace w) cs.

Definition set_state (s : State) (w : World) : World :=
  set_this (mkContext s (hasProvider (this w)) (setState (this w))
                      (isFlushing (this w))) w.
Definition set_isFlushing (b : bool) (w : World) : World :=
  set_this (mkContext (state (this w)) (hasProvider (this w))
                      (setState (this w)) b) w.

(** How a call ends: normally with a value, by an exception that unwinds to
    the caller (the effects performed so far stay), or not within the fuel. *)
Inductive Completion (A : Type) : Type :=
| Ret (a : A) (w : World)
| Exn (w : World)
| Fuel.
Arguments Ret {A} a w.
Arguments Exn {A} w.
Arguments Fuel {A}.

Definition bind {A B : Type} (c : Completion A)
    (k : A -> World -> Completion B) : Completion B :=
  match c with
  | Ret a w => k a w
  | Exn w => Exn w
  | Fuel => Fuel
  end.

(** [Inv] holds of the world a call ends in, however it ends. *)
Definition holds (Inv : World -> Prop) {A : Type} (c : Completion A)
    : Prop :=
  match c with
  | Ret _ w => Inv w
  | Exn w => Inv w
  | Fuel => True
  end.

(** An exception raised after [c] completed. *)
Definition then_throw {A B : Type} (c : Completion A) : Completion B :=
  bind c (fun _ w => Exn w).

(** ** The parameters of [createStore] and of the process *)

Inductive Initial : Type :=
| Value (s : State)
| Producer (f : unit -> State).

Variable initialState : Initial.
Variable listen : option Listener.
Variable APP_ENV : option string.      (* process.env.APP_ENV *)

Definition production : bool :=
  match APP_ENV with
  | Some v => if string_dec v "production"%string then true else false
  | None => false
  end.

(** [stateReader], threading the count of producer evaluations. *)
Definition stateReader (n : nat) : State * nat :=
  match initialState with
  | Producer f => (f tt, S n)
  | Value s => (s, n)
  end.

(** ** p-defer *)

Definition pDefer (w : World) : nat * World :=
  (length (promises w), set_promises (promises w ++ [Pending]) w).

Definition settle (p : nat) (v : State) (ps : list Promise) : list Promise :=
  match ps !! p with
  | Some Pending => <[p := Fulfilled v]> ps
  | _ => ps
  end.

Definition resolve (p : nat) (v : State) (w : World) : World :=
  log (EvResolve p v) (set_promises (settle p v (promises w)) w).

(** ** The context methods: [add], [flush], and [update] *)

Definition push (it : MutatorQueueItem) (w : World) : World :=
  set_queue (mutatorsQueue w ++ [it]) w.

Definition call_setState (s : State) (w : World) : World :=
  log (EvSetState s)
      (match setState (this w) with
       | Noop => w
       | Dispatch i => set_hooks (<[i := Some s]> (hooks w)) w
       end).

Section Reentry.

(** [this.flush] as reached from [add], for the call made from outside
    and for the calls the user code makes while it runs.  [flush] below
    ties the knot with the context object in use, which is where the calls
    of user code go when it holds the [update] closure of the context
    object whose loop runs it; [flush_via] sends them to another context
    object of the store, which has its own [isFlushing] and [state]. *)
Variable flush_rec : World -> Completion unit.

Definition add (mutator : Mutator) (deferredPromise : option nat)
    (w : World) : Completion unit :=
  flush_rec (push (mkItem mutator deferredPromise) w).

(** [mutators.forEach((mutator, idx) => ...)], from index [idx]. *)
Fixpoint forEach (len idx : nat) (rest : list Mutator) (dp : nat)
    (w : World) : Completion unit :=
  match rest with
  | [] => Ret tt w
  | mutator :: rest' =>
      bind (if Nat.eqb idx (len - 1)
            then add mutator (Some dp) w
            else add mutator None w)
           (fun _ => forEach len (S idx) rest' dp)
  end.

Definition update (mutators : list Mutator) (w : World) : Completion nat :=
  let '(dp, w1) := pDefer w in
  bind (forEach (length mutators) 0 mutators dp w1)
       (fun _ w2 => Ret dp w2).

(** The [update] calls user code issues while it runs; the context object
    whose [add] they reach is the one [flush_rec] flushes. *)
Fixpoint reenter (calls : Calls Mutator) (w : World) : Completion unit :=
  match calls with
  | [] => Ret tt w
  | ms :: calls' => bind (update ms w) (fun _ => reenter calls')
  end.

Definition call_listen (newState : State) (patches : list Patch)
    (w : World) : Completion unit :=
  match listen with
  | Some l =>
      let data := mkListenData newState (state (this w)) patches in
      match l data with
      | Completes calls => reenter calls (log (EvListen data) w)
      | Raises calls => then_throw (reenter calls (log (EvListen data) w))
      end
  | None => Ret tt w
  end.

(** mutative's [create(this.state, draft => { mutator(draft, this.state) },
    { enablePatches })]: the finalised draft and, with [enablePatches],
    the patches the engine has for it. *)
Definition create (enablePatches : bool) (mutator : Mutator) (w : World)
    : Completion (State * list Patch) :=
  let base := state (this w) in
  let w0 := log (EvCreate base (state (this w)) enablePatches) w in
  match run mutator base (state (this w)) with
  | Throws calls => then_throw (reenter calls w0)
  | Returns draft writes calls =>
      bind (reenter calls w0)
           (fun _ w1 =>
              Ret (draft, if enablePatches then writes else []) w1)
  end.

(** One iteration of the [while] of [flush], after the [shift]. *)
Definition iteration (item : MutatorQueueItem) (w : World)
    : Completion unit :=
  let patches0 : list Patch := [] in
  bind (if negb production
        then create true (mutator item) w
        else bind (create false (mutator item) w)
                  (fun r w' => Ret (fst r, patches0) w'))
       (fun r w1 =>
          let newState := fst r in
          let patches := snd r in
          bind (call_listen newState patches w1) (fun _ w2 =>
          let w3 := log (EvAssign newState) (set_state newState w2) in
          let w4 := match deferredPromise item with
                    | Some p => resolve p newState w3
                    | None => w3
                    end in
          Ret tt (call_setState (state (this w4)) w4))).

(** [while (this.mutatorsQueue.length) { ... } this.isFlushing = false] *)
Fixpoint while (n : nat) (w : World) : Completion unit :=
  match mutatorsQueue w with
  | [] => Ret tt (set_isFlushing false w)
  | item :: rest =>
      match n with
      | O => Fuel
      | S n' =>
          bind (iteration item (set_queue rest (set_isFlushing true w)))
               (fun _ => while n')
      end
  end.

End Reentry.

(** [flush()] of the context object in use, where the user code it runs
    holds the [update] closure of that same object: each nested
    [this.flush()] meets the flag that this call has set. *)
Fixpoint flush (fuel : nat) (w : World) : Completion unit :=
  match fuel with
  | O => Fuel
  | S fuel' =>
      if isFlushing (this w) then Ret tt w
      else while (flush fuel') fuel' w
  end.

(** The loop with every nested [this.flush()] replaced by a return. *)
Definition skip_flush (w : World) : Completion unit := Ret tt w.

Definition drain : nat -> World -> Completion unit := while skip_flush.

(** ** The [flush] of another context object

    [flush] above has the user code call the [update] closure of the
    context object whose loop runs it.  A closure that [useStore] built in
    another render, or under another connected component, is bound to that
    render's context object, which has its own [isFlushing] and [state]
    and shares the queue. *)

(** Context object [k] of [others] becomes the one the methods are invoked
    on, and the one in use takes its place; without such an object nothing
    changes. *)
Definition switch (k : nat) (w : World) : World :=
  match others w !! k with
  | Some c => set_others (<[k := this w]> (others w)) (set_this c w)
  | None => w
  end.

(** [this.flush()] as reached from the [add] of an [update] closure bound
    to context object [k]: the method runs on that object, and when it
    returns or throws the caller's object is in use again. *)
Definition flush_of (k fuel : nat) (w : World) : Completion unit :=
  match flush fuel (switch k w) with
  | Ret _ w' => Ret tt (switch k w')
  | Exn w' => Exn (switch k w')
  | Fuel => Fuel
  end.

(** [this.flush()] of the context object in use, when the [update] calls
    of the user code go through the closure bound to context object [k]. *)
Definition flush_via (k fuel : nat) (w : World) : Completion unit :=
  if isFlushing (this w) then Ret tt w
  else while (flush_of k fuel) fuel w.

(** ** [createStore], [connect] and [useStore] *)

Definition ContextBase (s : State) : StoreContext :=
  mkContext s false Noop false.

Definition createStore : World :=
  let '(s, n) := stateReader 0 in
  mkWorld (ContextBase s) [] [] [] n [] [].

(** A component returned by [connect] is mounted: React gives it an empty
    [useState] cell. *)
Definition mount (w : World) : nat * World :=
  (length (hooks w), set_hooks (hooks w ++ [None]) w).

(** [useState<State>(stateReader)] of instance [i]. *)
Definition useState (i : nat) (cell : option State) (w : World)
    : State * World :=
  match cell with
  | Some s => (s, w)
  | None =>
      let '(s, n) := stateReader (reads w) in
      (s, set_reads n (set_hooks (<[i := Some s]> (hooks w)) w))
  end.

(** One render of the component returned by [connect], for a mounted
    instance: the context object it builds, [{...ContextBase, state,
    setState, hasProvider: true}], becomes the one consumers below it get.
    The object in use until then is not changed by this; it joins
    [others]. *)
Definition render (i : nat) (w : World) : World :=
  match hooks w !! i with
  | Some cell =>
      let '(s, w1) := useState i cell w in
      set_others (others w1 ++ [this w1])
                 (set_this (mkContext s true (Dispatch i) false) w1)
  | None => w
  end.

Definition dquote : string := String (ascii_of_nat 34) EmptyString.

Definition usage_error : string :=
  ("Component must be wrapped with " ++ dquote ++ "connect(...)" ++ dquote)
  %string.

Record Handle : Type := mkHandle {
  handle_state : State;
  handle_update : nat -> list Mutator -> World -> Completion nat
}.

(** [createContext({...ContextBase})]: the default value. *)
Definition Context_default : StoreContext := this createStore.

(** [useContext(Context)]: the value of the enclosing provider, else the
    default value. *)
Definition useContext (provided : option StoreContext) : StoreContext :=
  match provided with
  | Some value => value
  | None => Context_default
  end.

(** [useStore], given what [useContext(Context)] returned.  The [update]
    closure captures [context]; in a world that is its [this]. *)
Definition useStore (context : StoreContext) : string + Handle :=
  if negb (hasProvider context) then inl usage_error
  else inr (mkHandle (state context) (fun fuel => update (flush fuel))).

(** ** Scripts: what the code outside the store can do to it *)

Inductive Op : Type :=
| DoMount                           (* React mounts a connected component *)
| DoRender (i : nat)                (* React renders instance [i] *)
| DoUpdate (mutators : list Mutator).   (* [update(...mutators)] is called *)

(** An [update] that throws leaves its effects behind and the script goes
    on; [None] when the fuel does not suffice. *)
Definition perform (fuel : nat) (op : Op) (w : World) : option World :=
  match op with
  | DoMount => Some (snd (mount w))
  | DoRender i => Some (render i w)
  | DoUpdate ms =>
      match update (flush fuel) ms w with
      | Ret _ w' => Some w'
      | Exn w' => Some w'
      | Fuel => None
      end
  end.

Fixpoint script (fuel : nat) (ops : list Op) (w : World) : option World :=
  match ops with
  | [] => Some w
  | op :: ops' =>
      match perform fuel op w with
      | Some w' => script fuel ops' w'
      | None => None
      end
  end.

(** ** Reading a world and a trace *)

Definition Idle (w : World) : Prop :=
  isFlushing (this w) = false /\ mutatorsQueue w = [].

Definition Draining (w : World) : Prop :=
  isFlushing (this w) = true.

Definition listener_calls (tr : list Event) : list ListenData :=
  omap (fun e => match e with EvListen d => Some d | _ => None end) tr.

(** The arguments of each entry into the engine: the base of the draft,
    the second argument handed to the mutator, and [enablePatches]. *)
Definition engine_calls (tr : list Event) : list (State * State * bool) :=
  omap (fun e => match e with
                 | EvCreate b o f => Some (b, o, f)
                 | _ => None
                 end) tr.

(** The state last assigned in a trace, [cur] if none is. *)
Fixpoint last_assigned (cur : State) (tr : list Event) : State :=
  match tr with
  | [] => cur
  | EvAssign s :: tr' => last_assigned s tr'
  | _ :: tr' => last_assigned cur tr'
  end.

(** Every entry into the engine hands the mutator, as base of the draft
    and as second argument, the state last assigned before it ([cur] if
    none was). *)
Fixpoint handed_current (cur : State) (tr : list Event) : Prop :=
  match tr with
  | [] => True
  | EvCreate b o _ :: tr' => b = cur /\ o = cur /\ handed_current cur tr'
  | EvAssign s :: tr' => handed_current s tr'
  | _ :: tr' => handed_current cur tr'
  end.

(** A run from [w0] has reached [w]. *)
Definition fed_from (w0 w : World) : Prop :=
  exists tr,
    trace w = trace w0 ++ tr
    /\ handed_current (state (this w0)) tr
    /\ state (this w) = last_assigned (state (this w0)) tr.

(** Each [resolve] call with the number of engine entries before it. *)
Fixpoint resolve_log (n : nat) (tr : list Event) : list (nat * nat * State) :=
  match tr with
  | [] => []
  | EvCreate _ _ _ :: tr' => resolve_log (S n) tr'
  | EvResolve p v :: tr' => (n, p, v) :: resolve_log n tr'
  | _ :: tr' => resolve_log n tr'
  end.

Definition is_resolve (e : Event) : bool :=
  match e with EvResolve _ _ => true | _ => false end.
Definition is_setState (e : Event) : bool :=
  match e with EvSetState _ => true | _ => false end.

(** Some event satisfying [P] occurs strictly before one satisfying [Q]. *)
Fixpoint precedes (P Q : Event -> bool) (tr : list Event) : bool :=
  match tr with
  | [] => false
  | e :: tr' => (P e && existsb Q tr') || precedes P Q tr'
  end.

(** An entry into the engine while a step is running, that is after the
    engine entry of a step whose [setState] call is still to come: in a
    trace of calls that return, the mark of a second loop at work inside an
    iteration of the first.  [running] tells whether a step is. *)
Fixpoint overlapping (running : bool) (tr : list Event) : bool :=
  match tr with
  | [] => false
  | EvCreate _ _ _ :: tr' => running || overlapping true tr'
  | EvSetState _ :: tr' => overlapping false tr'
  | _ :: tr' => overlapping running tr'
  end.

(** Number of [useState] cells that have been initialised. *)
Definition initialised (hs : list (option State)) : nat :=
  length (omap id hs).

(** How often a producer has been evaluated once the cells are [hs]. *)
Definition expected_reads (hs : list (option State)) : nat :=
  match initialState with
  | Producer _ => 1 + initialised hs
  | Value _ => 0
  end.

(** The evaluations are accounted for, and the setter of the context in
    use belongs to a component that has rendered. *)
Definition reads_accounted (w : World) : Prop :=
  reads w = expected_reads (hooks w)
  /\ forall i, setState (this w) = Dispatch i ->
               exists s, hooks w !! i = Some (Some s).

(** Promise [p] is pending and no queued step carries it. *)
Definition unreachable (p : nat) (w : World) : Prop :=
  promises w !! p = Some Pending
  /\ Forall (fun it => deferredPromise it <> Some p) (mutatorsQueue w).

(** Every promise carried by a queued step has been allocated. *)
Definition allocated (w : World) : Prop :=
  Forall (fun it => forall q, deferredPromise it = Some q ->
                              q < length (promises w))
         (mutatorsQueue w).

(** Whatever is done to the store from [w] on, no step is applied. *)
Definition never_applied_after (w : World) : Prop :=
  forall fuel ops w',
    script fuel ops w = Some w' ->
    engine_calls (trace w') = engine_calls (trace w).

(** A producer [initialState] is evaluated once, whatever is done to the
    store after its construction. *)
Definition evaluated_once : Prop :=
  forall fuel ops w', script fuel ops createStore = Some w' -> reads w' = 1.

(** ** Well-behaved user code, and what a step then amounts to *)

(** The mutator returns in every state and calls no [update] itself. *)
Definition quiet (m : Mutator) : Prop :=
  forall b o, exists d ws, run m b o = Returns d ws [].

Definition quiet_listener : Prop :=
  forall l d, listen = Some l -> l d = Completes [].

(** The engine's [apply(state, m)] of the specification. *)
Definition apply_mutator (s : State) (m : Mutator) : State :=
  match run m s s with
  | Returns d _ _ => d
  | Throws _ => s
  end.

(** The patches the engine has for the step of [m] on [s]. *)
Definition writes_of (s : State) (m : Mutator) : list Patch :=
  match run m s s with
  | Returns _ ws _ => ws
  | Throws _ => []
  end.

(** The state each mutator of a sequence starts from. *)
Fixpoint states_before (s : State) (ms : list Mutator) : list State :=
  match ms with
  | [] => []
  | m :: ms' => s :: states_before (apply_mutator s m) ms'
  end.

(** What the specification has the listener see: one (prior, new) pair per
    step, in order. *)
Fixpoint listen_log (s : State) (ms : list Mutator) : list (State * State) :=
  match ms with
  | [] => []
  | m :: ms' =>
      (s, apply_mutator s m) :: listen_log (apply_mutator s m) ms'
  end.

(** The queue entries one [update(...mutators)] makes, from index [idx]. *)
Fixpoint items_of (len idx : nat) (ms : list Mutator) (dp : nat)
    : list MutatorQueueItem :=
  match ms with
  | [] => []
  | m :: ms' =>
      mkItem m (if Nat.eqb idx (len - 1) then Some dp else None)
      :: items_of len (S idx) ms' dp
  end.

(** A step without, and with, a completion promise. *)
Definition plain (m : Mutator) : MutatorQueueItem := mkItem m None.
Definition completing (p : nat) (m : Mutator) : MutatorQueueItem :=
  mkItem m (Some p).

(** An [update] that only enqueues. *)
Definition enqueue (ms : list Mutator) (w : World) : World :=
  set_queue (mutatorsQueue w
             ++ items_of (length ms) 0 ms (length (promises w)))
            (set_promises (promises w ++ [Pending]) w).

Definition enqueue_all (calls : Calls Mutator) (w : World) : World :=
  foldl (fun w ms => enqueue ms w) w calls.

(** The second half of an iteration, from the call of a listener that
    returns: [s'] is the new state and [ps] the patches. *)
Definition conclude (item : MutatorQueueItem) (s' : State)
    (ps : list Patch) (w0 : World) : World :=
  let w1 := match listen with
            | Some _ => log (EvListen (mkListenData s' (state (this w0)) ps)) w0
            | None => w0
            end in
  let w2 := log (EvAssign s') (set_state s' w1) in
  let w3 := match deferredPromise item with
            | Some p => resolve p s' w2
            | None => w2
            end in
  call_setState s' w3.

(** The effect of one loop iteration whose user code is quiet. *)
Definition applied (w : World) (item : MutatorQueueItem) : World :=
  let s := state (this w) in
  conclude item (apply_mutator s (mutator item))
           (if negb production then writes_of s (mutator item) else [])
           (log (EvCreate s s (negb production)) w).

(** The loop's own two fields as it leaves them. *)
Definition at_rest (w : World) : World :=
  set_queue [] (set_isFlushing false w).

(** The events of that iteration, from state [s]. *)
Definition step_events (s : State) (item : MutatorQueueItem) : list Event :=
  let s' := apply_mutator s (mutator item) in
  let ps := if negb production then writes_of s (mutator item) else [] in
  [EvCreate s s (negb production)]
  ++ match listen with
     | Some _ => [EvListen (mkListenData s' s ps)]
     | None => []
     end
  ++ [EvAssign s']
  ++ match deferredPromise item with
     | Some p => [EvResolve p s']
     | None => []
     end
  ++ [EvSetState s'].

Fixpoint events (s : State) (items : list MutatorQueueItem) : list Event :=
  match items with
  | [] => []
  | it :: items' =>
      step_events s it ++ events (apply_mutator s (mutator it)) items'
  end.

(** ** Further readings of a world and a trace *)

(** The arguments of the calls of [this.setState], in order. *)
Definition setState_calls (tr : list Event) : list State :=
  omap (fun e => match e with EvSetState s => Some s | _ => None end) tr.

(** The state after each mutator of a sequence, in order. *)
Fixpoint states_after (s : State) (ms : list Mutator) : list State :=
  match ms with
  | [] => []
  | m :: ms' => apply_mutator s m :: states_after (apply_mutator s m) ms'
  end.

(** Two worlds that differ at most in what was logged. *)
Definition same_store (w1 w2 : World) : Prop :=
  this w1 = this w2
  /\ mutatorsQueue w1 = mutatorsQueue w2
  /\ promises w1 = promises w2
  /\ hooks w1 = hooks w2
  /\ reads w1 = reads w2
  /\ others w1 = others w2.

(** The [useState] cell of instance [i] holds the state of the context in
    use, as it does right after a render of [i]. *)
Definition in_sync (i : nat) (w : World) : Prop :=
  setState (this w) = Dispatch i
  /\ hooks w !! i = Some (Some (state (this w))).

End Store.


Arguments Throws {State Patch M} calls.
Arguments Returns {State Patch M} draft writes calls.
Arguments Ret {State Patch A} a w.
Arguments Exn {State Patch A} w.
Arguments Fuel {State Patch A}.
Arguments step_events : simpl never.
Arguments applied : simpl never.
Arguments conclude : simpl never.

(** ** A concrete store: the counter of the test-suite *)

Record Counter : Type := mkCounter { count : Z }.

(** mutative's patch: [{ op, path, value }]. *)
Record CPatch : Type := mkPatch {
  op : string;
  path : list string;
  value : Z
}.

(** [(draft, oldState) => { draft.count = f(draft.count, oldState.count) }];
    the engine has a patch when the assigned value differs. *)
Definition assign_count (f : Z -> Z -> Z) : @Mutator Counter CPatch :=
  Mut (fun draft old =>
         let v := f (count draft) (count old) in
         Returns (mkCounter v)
                 (if Z.eqb v (count draft) then []
                  else [mkPatch "replace"%string ["count"%string] v])
                 []).

(** [(draft, oldState) => { draft.count = v1; ...; draft.count = vn }],
    where [vs] gives the assigned values from the counts of the two
    arguments.  mutative compares what the draft holds in the end with the
    base: it reports one [replace] patch when the two differ and none when
    they are identical, whatever was assigned on the way. *)
Definition assigning (vs : Z -> Z -> list Z) : @Mutator Counter CPatch :=
  Mut (fun draft old =>
         let v := List.last (vs (count draft) (count old)) (count draft) in
         Returns (mkCounter v)
                 (if Z.eqb v (count draft) then []
                  else [mkPatch "replace"%string ["count"%string] v])
                 []).

(** The step of [assigning vs] on state [s] performs a write: it assigns
    to the draft at least once. *)
Definition performs_write (vs : Z -> Z -> list Z) (s : Counter) : Prop :=
  vs (count s) (count s) <> [].

(** A mutator that throws before writing. *)
Definition failing : @Mutator Counter CPatch := Mut (fun _ _ => Throws []).

Definition recorder : @Listener Counter CPatch := fun _ => Completes [].

(** [draft => { draft.count = v }], [draft => { draft.count += k }] and
    [(draft, oldState) => { draft.count = oldState.count + 1 }]. *)
Definition set_count (v : Z) : @Mutator Counter CPatch :=
  assign_count (fun _ _ => v).
Definition add_count (k : Z) : @Mutator Counter CPatch :=
  assign_count (fun d _ => (d + k)%Z).
Definition from_prior : @Mutator Counter CPatch :=
  assign_count (fun _ old => (old + 1)%Z).

(** A mutator that calls [update(...ms)] and then writes [v]. *)
Definition reentering (v : Z) (ms : list (@Mutator Counter CPatch))
    : @Mutator Counter CPatch :=
  Mut (fun _ _ =>
         Returns (mkCounter v) [mkPatch "replace"%string ["count"%string] v]
                 [ms]).

(** [update(d => d.count += 1, d => d.count += 10, d => d.count += 100)]
    of the test-suite. *)
Definition three_steps : list (@Mutator Counter CPatch) :=
  [add_count 1; add_count 10; add_count 100].

(** [createStore(() => ({ count: 99 }))]. *)
Definition counter_producer : @Initial Counter :=
  Producer (fun _ => mkCounter 99).

(** A queue left behind a quiet step: a throwing step and one more. *)
Definition stuck_queue : list (@MutatorQueueItem Counter CPatch) :=
  [plain (add_count 1); plain failing; plain (add_count 2)].

(** [createStore({ count: n })], with the component returned by [connect]
    mounted and rendered once. *)
Definition counter_at (n : Z) : @World Counter CPatch :=
  render (Value (mkCounter n)) 0
         (snd (mount (createStore (Value (mkCounter n))))).

(** The counter's component rendered a second time: [others] holds the
    default context and, at index 1, the context object of the first
    render, to which an [update] closure kept from that render is bound. *)
Definition rendered_twice : @World Counter CPatch :=
  render (Value (mkCounter 0)) 0 (counter_at 0).

(** A listener that throws, and one that calls
    [update(d => { d.count += 1 })] on every notification. *)
Definition grumpy : @Listener Counter CPatch := fun _ => Raises [].
Definition echo : @Listener Counter CPatch :=
  fun _ => Completes [[add_count 1]].

(** * Properties *)

Section Facts.

Context {State Patch : Type}.
Variable initialState : @Initial State.
Variable listen : option (@Listener State Patch).
Variable APP_ENV : option string.

Implicit Types (w : @World State Patch) (m : @Mutator State Patch).
Implicit Types (item it : @MutatorQueueItem State Patch).
Implicit Types (ms : list (@Mutator State Patch)).
Implicit Types (s : State).
Implicit Types (tr : list (@Event State Patch)).

(** ** Field assignments commute and absorb *)

Lemma world_eta w :
  mkWorld (this w) (mutatorsQueue w) (promises w) (hooks w) (reads w)
          (trace w) (others w) = w.
Proof. by destruct w. Qed.

Lemma context_eta (c : @StoreContext State) :
  mkContext (state c) (hasProvider c) (setState c) (isFlushing c) = c.
Proof. by destruct c. Qed.

Lemma set_queue_same w : set_queue (mutatorsQueue w) w = w.
Proof. apply world_eta. Qed.

Lemma set_isFlushing_same w : set_isFlushing (isFlushing (this w)) w = w.
Proof.
  unfold set_isFlushing, set_this. rewrite context_eta. apply world_eta.
Qed.

(** ** The guard of [flush] *)

Lemma flush_guard fuel w :
  Draining w -> flush listen APP_ENV (S fuel) w = Ret tt w.
Proof. unfold Draining. simpl. by intros ->. Qed.

(** ** Re-entrant calls while the flag is set

    Whatever [this.flush] is, as long as it honours the guard, every
    [add], [update] and batch of [update]s issued while [isFlushing] is
    set only lengthens the queue. *)

Section Guarded.

Variable fr : @World State Patch -> @Completion State Patch unit.
Hypothesis fr_guard : forall w, Draining w -> fr w = Ret tt w.

Lemma add_draining m dp w :
  Draining w -> add fr m dp w = Ret tt (push (mkItem m dp) w).
Proof. intros D. unfold add. by apply fr_guard. Qed.

Lemma forEach_draining ms : forall len idx dp w,
  Draining w ->
  forEach fr len idx ms dp w
  = Ret tt (set_queue (mutatorsQueue w ++ items_of len idx ms dp) w).
Proof.
  induction ms as [|m ms IH]; intros len idx dp w D; simpl.
  - by rewrite app_nil_r, set_queue_same.
  - assert (E : forall o, add fr m o w = Ret tt (push (mkItem m o) w))
      by (intros o; by apply add_draining).
    destruct (Nat.eqb idx (len - 1)); rewrite E; simpl;
      (rewrite IH by exact D); unfold set_queue, push; simpl;
      by rewrite <- app_assoc.
Qed.

Lemma update_draining ms w :
  Draining w ->
  update fr ms w = Ret (length (promises w)) (enqueue ms w).
Proof.
  intros D. unfold update, pDefer.
  rewrite forEach_draining by exact D. reflexivity.
Qed.

Lemma enqueue_draining ms w : Draining w -> Draining (enqueue ms w).
Proof. by unfold Draining. Qed.

Lemma enqueue_all_draining calls : forall w,
  Draining w -> Draining (enqueue_all calls w).
Proof.
  induction calls as [|ms calls IH]; intros w D; simpl; [done|].
  apply IH. by apply enqueue_draining.
Qed.

Lemma reenter_draining calls : forall w,
  Draining w -> reenter fr calls w = Ret tt (enqueue_all calls w).
Proof.
  induction calls as [|ms calls IH]; intros w D; simpl; [done|].
  rewrite update_draining by exact D. simpl.
  apply IH. by apply enqueue_draining.
Qed.

End Guarded.

Lemma skip_flush_guard w : Draining w -> skip_flush w = Ret tt w.
Proof. done. Qed.

(** ** No second drain: inside the loop the nested [flush] does nothing *)

Section NoSecondDrain.

Variable fr : @World State Patch -> @Completion State Patch unit.
Hypothesis fr_guard : forall w, Draining w -> fr w = Ret tt w.

Lemma reenter_skip calls w :
  Draining w -> reenter fr calls w = reenter skip_flush calls w.
Proof.
  intros D. rewrite (reenter_draining fr fr_guard) by done.
  by rewrite (reenter_draining skip_flush skip_flush_guard).
Qed.

Lemma call_listen_draining s' ps w :
  Draining w ->
  call_listen listen fr s' ps w = call_listen listen skip_flush s' ps w.
Proof.
  intros D. unfold call_listen. destruct listen as [l|]; [|done].
  destruct (l _) as [calls|calls]; by rewrite reenter_skip.
Qed.

Lemma create_draining e m w :
  Draining w ->
  create fr e m w = create skip_flush e m w
  /\ forall r w', create skip_flush e m w = Ret r w' -> Draining w'.
Proof.
  intros D. unfold create.
  destruct (run _ _ _) as [calls|d ws calls];
    rewrite reenter_skip by done;
    rewrite (reenter_draining skip_flush skip_flush_guard) by done;
    (split; [done|]); simpl; [done|].
  intros r w' [= _ <-]. by apply enqueue_all_draining.
Qed.

Lemma iteration_draining item w :
  Draining w ->
  iteration listen APP_ENV fr item w
  = iteration listen APP_ENV skip_flush item w.
Proof.
  intros D. unfold iteration.
  destruct (negb (production APP_ENV)).
  - destruct (create_draining true (mutator item) w D) as [-> K].
    destruct (create skip_flush _ _ _) as [r w'|w'|]; simpl; try done.
    rewrite call_listen_draining; [done|]. by apply (K r).
  - destruct (create_draining false (mutator item) w D) as [-> K].
    destruct (create skip_flush _ _ _) as [r w'|w'|]; simpl; try done.
    rewrite call_listen_draining; [done|]. by apply (K r).
Qed.

Lemma while_no_second_drain n : forall w,
  while listen APP_ENV fr n w = drain listen APP_ENV n w.
Proof.
  unfold drain. induction n as [|n IH]; intros w; simpl; [done|].
  destruct (mutatorsQueue w) as [|item rest]; [done|].
  rewrite iteration_draining by done.
  destruct (iteration _ _ _ _ _) as [[] w'|w'|]; simpl; auto.
Qed.

End NoSecondDrain.

Lemma flush_idle fuel w :
  isFlushing (this w) = false ->
  flush listen APP_ENV (S fuel) w = drain listen APP_ENV fuel w.
Proof.
  intros E. simpl. rewrite E. destruct fuel as [|fuel].
  - unfold drain. simpl. by destruct (mutatorsQueue w).
  - apply while_no_second_drain. intros w'. apply flush_guard.
Qed.

(** ** Quiet user code: an iteration is [applied] *)

Lemma iteration_quiet fr item w :
  quiet (mutator item) -> quiet_listener listen ->
  iteration listen APP_ENV fr item w = Ret tt (applied listen APP_ENV w item).
Proof.
  intros Q QL.
  unfold iteration, create, applied, conclude, apply_mutator, writes_of.
  destruct (Q (state (this w)) (state (this w))) as (d & ws & ->).
  destruct (production APP_ENV); simpl;
    unfold call_listen; destruct listen as [l|] eqn:EL; simpl;
    rewrite ?(QL l _ eq_refl); simpl; by destruct (deferredPromise item).
Qed.

Lemma applied_set_queue q w item :
  applied listen APP_ENV (set_queue q w) item
  = set_queue q (applied listen APP_ENV w item).
Proof.
  unfold applied, conclude. simpl.
  destruct listen, (deferredPromise item), (setState (this w)) eqn:E;
    unfold call_setState; simpl; rewrite ?E; reflexivity.
Qed.

Lemma applied_set_isFlushing b w item :
  applied listen APP_ENV (set_isFlushing b w) item
  = set_isFlushing b (applied listen APP_ENV w item).
Proof.
  unfold applied, conclude. simpl.
  destruct listen, (deferredPromise item), (setState (this w)) eqn:E;
    unfold call_setState; simpl; rewrite ?E; reflexivity.
Qed.

Lemma foldl_applied_set_queue q items : forall w,
  foldl (applied listen APP_ENV) (set_queue q w) items
  = set_queue q (foldl (applied listen APP_ENV) w items).
Proof.
  induction items as [|it items IH]; intros w; simpl; [done|].
  by rewrite applied_set_queue, IH.
Qed.

Lemma foldl_applied_set_isFlushing b items : forall w,
  foldl (applied listen APP_ENV) (set_isFlushing b w) items
  = set_isFlushing b (foldl (applied listen APP_ENV) w items).
Proof.
  induction items as [|it items IH]; intros w; simpl; [done|].
  by rewrite applied_set_isFlushing, IH.
Qed.

Lemma applied_queue w item :
  mutatorsQueue (applied listen APP_ENV w item) = mutatorsQueue w.
Proof.
  unfold applied, conclude, call_setState.
  by destruct listen, (deferredPromise item), (setState _).
Qed.

Lemma applied_isFlushing w item :
  isFlushing (this (applied listen APP_ENV w item)) = isFlushing (this w).
Proof.
  unfold applied, conclude, call_setState. simpl.
  destruct listen, (deferredPromise item); simpl;
    by destruct (setState (this w)).
Qed.

(** Settling the loop's two own fields last absorbs earlier settings. *)
Lemma at_rest_absorb q b w :
  at_rest (set_queue q (set_isFlushing b w)) = at_rest w.
Proof. reflexivity. Qed.

Lemma at_rest_idle w : Idle w -> at_rest w = w.
Proof.
  intros [E1 E2]. unfold at_rest. rewrite <- E1, set_isFlushing_same.
  rewrite <- E2. apply set_queue_same.
Qed.

(** The loop on a queue of quiet steps runs them all and stops. *)
Lemma while_quiet fr items : forall n w,
  mutatorsQueue w = items ->
  Forall (fun it => quiet (mutator it)) items ->
  quiet_listener listen ->
  length items <= n ->
  while listen APP_ENV fr n w
  = Ret tt (at_rest (foldl (applied listen APP_ENV) w items)).
Proof.
  induction items as [|it items IH]; intros n w EQ QS QL LE.
  - destruct n; simpl; rewrite EQ; simpl; unfold at_rest;
      f_equal; rewrite <- EQ at 1; reflexivity.
  - destruct n as [|n]; [simpl in LE; lia|].
    simpl. rewrite EQ.
    inversion QS as [|? ? Q1 Q2]; subst.
    rewrite iteration_quiet by done. simpl.
    rewrite (IH n); try done.
    + rewrite applied_set_queue, applied_set_isFlushing.
      rewrite foldl_applied_set_queue, foldl_applied_set_isFlushing.
      by rewrite at_rest_absorb.
    + by rewrite applied_queue.
    + simpl in LE. lia.
Qed.

Lemma at_rest_set_queue q w : at_rest (set_queue q w) = at_rest w.
Proof. reflexivity. Qed.

Lemma applied_idle w item : Idle w -> Idle (applied listen APP_ENV w item).
Proof.
  intros [E1 E2]. split; [by rewrite applied_isFlushing|by rewrite applied_queue].
Qed.

Lemma foldl_applied_idle items : forall w,
  Idle w -> Idle (foldl (applied listen APP_ENV) w items).
Proof.
  induction items as [|it items IH]; intros w I; simpl; [done|].
  apply IH. by apply applied_idle.
Qed.

(** ** [add] and [update] on an idle context, quiet user code *)

Lemma add_idle_quiet fuel m dp w :
  Idle w -> quiet m -> quiet_listener listen ->
  add (flush listen APP_ENV (S (S fuel))) m dp w
  = Ret tt (applied listen APP_ENV w (mkItem m dp)).
Proof.
  intros I Q QL. unfold add.
  rewrite flush_idle by apply I. unfold drain.
  rewrite (while_quiet _ [mkItem m dp]); simpl; try done.
  - unfold push. rewrite applied_set_queue, at_rest_set_queue.
    f_equal. apply at_rest_idle. by apply applied_idle.
  - unfold push. simpl. destruct I as [_ ->]. done.
  - by constructor.
  - lia.
Qed.

Lemma forEach_idle_quiet fuel ms : forall len idx dp w,
  Idle w -> Forall quiet ms -> quiet_listener listen ->
  forEach (flush listen APP_ENV (S (S fuel))) len idx ms dp w
  = Ret tt (foldl (applied listen APP_ENV) w (items_of len idx ms dp)).
Proof.
  induction ms as [|m ms IH]; intros len idx dp w I QS QL; simpl; [done|].
  inversion QS as [|? ? Q1 Q2]; subst.
  assert (E : forall o, add (flush listen APP_ENV (S (S fuel))) m o w
                        = Ret tt (applied listen APP_ENV w (mkItem m o)))
    by (intros o; by apply add_idle_quiet).
  destruct (Nat.eqb idx (len - 1)); rewrite E; simpl;
    apply IH; try done; by apply applied_idle.
Qed.

Lemma update_idle_quiet fuel ms w :
  Idle w -> Forall quiet ms -> quiet_listener listen ->
  update (flush listen APP_ENV (S (S fuel))) ms w
  = Ret (length (promises w))
        (foldl (applied listen APP_ENV)
               (set_promises (promises w ++ [Pending]) w)
               (items_of (length ms) 0 ms (length (promises w)))).
Proof.
  intros I QS QL. unfold update, pDefer.
  by rewrite forEach_idle_quiet.
Qed.

(** ** What [applied] leaves in each field *)

Lemma applied_state w item :
  state (this (applied listen APP_ENV w item))
  = apply_mutator (state (this w)) (mutator item).
Proof.
  unfold applied, conclude, call_setState. simpl.
  destruct listen, (deferredPromise item); simpl;
    by destruct (setState (this w)).
Qed.

Lemma applied_trace w item :
  trace (applied listen APP_ENV w item)
  = trace w ++ step_events listen APP_ENV (state (this w)) item.
Proof.
  unfold applied, conclude, step_events, call_setState. simpl.
  destruct listen, (deferredPromise item); simpl;
    destruct (setState (this w)); simpl;
    rewrite <- ?app_assoc; reflexivity.
Qed.

Lemma applied_promises w item :
  promises (applied listen APP_ENV w item)
  = match deferredPromise item with
    | Some p => settle p (apply_mutator (state (this w)) (mutator item))
                       (promises w)
    | None => promises w
    end.
Proof.
  unfold applied, conclude, call_setState. simpl.
  destruct listen, (deferredPromise item); simpl;
    by destruct (setState (this w)).
Qed.

Lemma foldl_applied_state items : forall w,
  state (this (foldl (applied listen APP_ENV) w items))
  = foldl apply_mutator (state (this w)) (map mutator items).
Proof.
  induction items as [|it items IH]; intros w; simpl; [done|].
  by rewrite IH, applied_state.
Qed.

Lemma events_cons s it items :
  events listen APP_ENV s (it :: items)
  = step_events listen APP_ENV s it
    ++ events listen APP_ENV (apply_mutator s (mutator it)) items.
Proof. reflexivity. Qed.

Lemma foldl_applied_trace items : forall w,
  trace (foldl (applied listen APP_ENV) w items)
  = trace w ++ events listen APP_ENV (state (this w)) items.
Proof.
  induction items as [|it items IH]; intros w.
  - simpl. by rewrite app_nil_r.
  - rewrite events_cons. cbn [foldl].
    by rewrite IH, applied_trace, applied_state, <- app_assoc.
Qed.

Lemma foldl_applied_promises_plain ms : forall w,
  promises (foldl (applied listen APP_ENV) w (map plain ms)) = promises w.
Proof.
  induction ms as [|m ms IH]; intros w; simpl; [done|].
  by rewrite IH, applied_promises.
Qed.

(** ** The queue entries of one [update] *)

Lemma items_of_mutators ms : forall len idx dp,
  map mutator (items_of len idx ms dp) = ms.
Proof.
  induction ms as [|m ms IH]; intros; simpl; [done|]. by rewrite IH.
Qed.

(** Only the entry of the last mutator carries the promise. *)
Lemma items_of_last ms m : forall idx dp,
  items_of (idx + S (length ms)) idx (ms ++ [m]) dp
  = map plain ms ++ [completing dp m].
Proof.
  induction ms as [|m' ms IH]; intros idx dp; simpl.
  - replace (idx + 1 - 1) with idx by lia. by rewrite Nat.eqb_refl.
  - destruct (Nat.eqb_spec idx (idx + S (S (length ms)) - 1)) as [E|_];
      [lia|].
    replace (idx + S (S (length ms))) with (S idx + S (length ms)) by lia.
    by rewrite IH.
Qed.

Lemma map_mutator_plain ms : map mutator (map plain ms) = ms.
Proof. induction ms as [|m ms IH]; simpl; [done|]. by rewrite IH. Qed.

(** ** Reading the events of a batch *)

Lemma events_app items1 items2 : forall s,
  events listen APP_ENV s (items1 ++ items2)
  = events listen APP_ENV s items1
    ++ events listen APP_ENV (foldl apply_mutator s (map mutator items1))
              items2.
Proof.
  induction items1 as [|it items1 IH]; intros s; [done|].
  rewrite <- app_comm_cons, !events_cons, IH. cbn [map foldl].
  by rewrite <- app_assoc.
Qed.

Lemma resolve_log_app tr1 tr2 : forall n,
  resolve_log n (tr1 ++ tr2)
  = resolve_log n tr1 ++ resolve_log (n + length (engine_calls tr1)) tr2.
Proof.
  induction tr1 as [|e tr1 IH]; intros n; simpl.
  - by rewrite Nat.add_0_r.
  - destruct e; simpl; rewrite IH; try done.
    by replace (S n + length (engine_calls tr1))
      with (n + S (length (engine_calls tr1))) by lia.
Qed.

Lemma engine_calls_app tr1 tr2 :
  engine_calls (tr1 ++ tr2) = engine_calls tr1 ++ engine_calls tr2.
Proof. apply omap_app. Qed.

Lemma engine_calls_step s item :
  engine_calls (step_events listen APP_ENV s item)
  = [(s, s, negb (production APP_ENV))].
Proof.
  unfold step_events. by destruct listen, (deferredPromise item).
Qed.

Lemma engine_calls_events items : forall s,
  length (engine_calls (events listen APP_ENV s items)) = length items.
Proof.
  induction items as [|it items IH]; intros s; [done|].
  rewrite events_cons, engine_calls_app, length_app, engine_calls_step, IH.
  done.
Qed.

Lemma resolve_log_step_plain n s m :
  resolve_log n (step_events listen APP_ENV s (plain m)) = [].
Proof. unfold step_events. by destruct listen. Qed.

Lemma resolve_log_step_completing n s p m :
  resolve_log n (step_events listen APP_ENV s (completing p m))
  = [(S n, p, apply_mutator s m)].
Proof. unfold step_events. by destruct listen. Qed.

Lemma resolve_log_events_plain ms : forall n s,
  resolve_log n (events listen APP_ENV s (map plain ms)) = [].
Proof.
  induction ms as [|m ms IH]; intros n s; [done|].
  cbn [map]. rewrite events_cons.
  by rewrite resolve_log_app, resolve_log_step_plain, IH.
Qed.

Lemma settle_fresh (ps : list (@Promise State)) v :
  settle (length ps) v (ps ++ [Pending]) !! length ps = Some (Fulfilled v).
Proof.
  unfold settle. rewrite list_lookup_middle by done.
  apply list_lookup_insert_eq. rewrite length_app. simpl. lia.
Qed.

(** ** C1 *)

(** C1. For a non-empty sequence of mutators passed to one [update] on an
    idle container, the call returns a promise that is resolved exactly
    once, with the state obtained by applying every mutator in order to the
    pre-call state (which is then the container's state), and the one
    [resolve] is issued in the step of the last mutator, after [length ms]
    entries into the engine; mutators and listener return normally and
    issue no [update] of their own. *)
Theorem update_resolves_once_with_final_state ms w fuel :
  ms <> [] -> Forall quiet ms -> quiet_listener listen -> Idle w ->
  2 <= fuel ->
  exists w' tr,
    update (flush listen APP_ENV fuel) ms w = Ret (length (promises w)) w'
    /\ promises w' !! length (promises w)
       = Some (Fulfilled (foldl apply_mutator (state (this w)) ms))
    /\ state (this w') = foldl apply_mutator (state (this w)) ms
    /\ trace w' = trace w ++ tr
    /\ resolve_log 0 tr
       = [(length ms, length (promises w),
           foldl apply_mutator (state (this w)) ms)]
    /\ Idle w'.
Proof.
  intros NE QS QL I LE.
  destruct fuel as [|[|fuel]]; [lia|lia|].
  destruct ms as [|m ms _] using rev_ind; [done|].
  set (p := length (promises w)). set (s := state (this w)).
  set (w1 := set_promises (promises w ++ [Pending]) w).
  exists (foldl (applied listen APP_ENV) w1 (map plain ms ++ [completing p m])),
         (events listen APP_ENV s (map plain ms ++ [completing p m])).
  assert (EI : items_of (length (ms ++ [m])) 0 (ms ++ [m]) p
               = map plain ms ++ [completing p m]).
  { rewrite length_app. simpl.
    replace (length ms + 1) with (0 + S (length ms)) by lia.
    apply items_of_last. }
  split; [|split; [|split; [|split; [|split]]]].
  - rewrite update_idle_quiet by done. fold p w1. by rewrite EI.
  - rewrite foldl_app. cbn [foldl]. rewrite applied_promises.
    cbn [completing deferredPromise mutator].
    rewrite foldl_applied_promises_plain, foldl_applied_state.
    rewrite map_mutator_plain, foldl_app. unfold w1, p. simpl.
    apply settle_fresh.
  - rewrite foldl_applied_state, map_app, map_mutator_plain. done.
  - by rewrite foldl_applied_trace.
  - rewrite events_app, resolve_log_app, resolve_log_events_plain.
    rewrite engine_calls_events, length_map, map_mutator_plain.
    rewrite events_cons. cbn [events app Nat.add].
    rewrite app_nil_r, resolve_log_step_completing, length_app, foldl_app.
    simpl. by replace (length ms + 1) with (S (length ms)) by lia.
  - apply foldl_applied_idle. exact I.
Qed.

(** ** C2 *)

Lemma listener_calls_app tr1 tr2 :
  listener_calls (tr1 ++ tr2) = listener_calls tr1 ++ listener_calls tr2.
Proof. apply omap_app. Qed.

Lemma listener_calls_step l s item :
  listen = Some l ->
  listener_calls (step_events listen APP_ENV s item)
  = [mkListenData (apply_mutator s (mutator item)) s
       (if negb (production APP_ENV) then writes_of s (mutator item)
        else [])].
Proof.
  intros ->. unfold step_events. by destruct (deferredPromise item).
Qed.

Lemma listener_calls_events l items : forall s,
  listen = Some l ->
  map (fun d => (oldState d, newState d))
      (listener_calls (events listen APP_ENV s items))
  = listen_log s (map mutator items).
Proof.
  induction items as [|it items IH]; intros s EL; [done|].
  rewrite events_cons, listener_calls_app, map_app.
  rewrite (listener_calls_step l) by done. cbn [map app listen_log].
  by rewrite IH.
Qed.

Lemma flush_quiet_queue fuel w :
  isFlushing (this w) = false ->
  Forall (fun it => quiet (mutator it)) (mutatorsQueue w) ->
  quiet_listener listen ->
  length (mutatorsQueue w) < fuel ->
  flush listen APP_ENV fuel w
  = Ret tt (at_rest (foldl (applied listen APP_ENV) w (mutatorsQueue w))).
Proof.
  intros E QS QL LT. destruct fuel as [|fuel]; [lia|].
  rewrite flush_idle by done. unfold drain.
  apply while_quiet; try done. lia.
Qed.

Lemma at_rest_trace w : trace (at_rest w) = trace w.
Proof. reflexivity. Qed.

Lemma at_rest_state w : state (this (at_rest w)) = state (this w).
Proof. reflexivity. Qed.

Lemma length_listen_log ms : forall s, length (listen_log s ms) = length ms.
Proof. induction ms as [|m ms IH]; intros s; simpl; [done|]. by rewrite IH. Qed.

(** C2. With a [listen] callback supplied, draining a queue of steps calls
    the listener exactly once per step, in the order of the queue, with
    [oldState] the container's state just before the step and [newState]
    the state just after it; the same holds for the steps of one [update]
    on an idle container.  Mutators and listener return normally and issue
    no [update] of their own. *)
Theorem listener_called_once_per_step_in_order l w fuel :
  listen = Some l ->
  quiet_listener listen ->
  isFlushing (this w) = false ->
  Forall (fun it => quiet (mutator it)) (mutatorsQueue w) ->
  length (mutatorsQueue w) < fuel ->
  (exists w' tr,
      flush listen APP_ENV fuel w = Ret tt w'
      /\ trace w' = trace w ++ tr
      /\ length (listener_calls tr) = length (mutatorsQueue w)
      /\ map (fun d => (oldState d, newState d)) (listener_calls tr)
         = listen_log (state (this w)) (map mutator (mutatorsQueue w)))
  /\ (forall ms, mutatorsQueue w = [] -> Forall quiet ms -> 2 <= fuel ->
       exists p w' tr,
         update (flush listen APP_ENV fuel) ms w = Ret p w'
         /\ trace w' = trace w ++ tr
         /\ length (listener_calls tr) = length ms
         /\ map (fun d => (oldState d, newState d)) (listener_calls tr)
            = listen_log (state (this w)) ms).
Proof.
  intros EL QL E QS LT. split.
  - exists (at_rest (foldl (applied listen APP_ENV) w (mutatorsQueue w))),
           (events listen APP_ENV (state (this w)) (mutatorsQueue w)).
    assert (EM := listener_calls_events l (mutatorsQueue w) (state (this w)) EL).
    split; [by apply flush_quiet_queue|].
    split; [by rewrite at_rest_trace, foldl_applied_trace|].
    split; [|done].
    rewrite <- (length_map (fun d => (oldState d, newState d))), EM.
    by rewrite length_listen_log, length_map.
  - intros ms EQ QM LE.
    destruct fuel as [|[|fuel']]; [lia|lia|].
    set (items := items_of (length ms) 0 ms (length (promises w))).
    assert (EM := listener_calls_events l items (state (this w)) EL).
    unfold items in EM at 2. rewrite items_of_mutators in EM.
    exists (length (promises w)),
           (foldl (applied listen APP_ENV)
                  (set_promises (promises w ++ [Pending]) w) items),
           (events listen APP_ENV (state (this w)) items).
    split; [by apply update_idle_quiet|].
    split; [by rewrite foldl_applied_trace|].
    split; [|done].
    rewrite <- (length_map (fun d => (oldState d, newState d))), EM.
    apply length_listen_log.
Qed.

(** ** Steps whose mutator re-enters or throws *)

Lemma enqueue_all_this calls : forall w, this (enqueue_all calls w) = this w.
Proof. induction calls as [|ms calls IH]; intros w; simpl; [done|]. by rewrite IH. Qed.

Lemma enqueue_all_trace calls : forall w,
  trace (enqueue_all calls w) = trace w.
Proof. induction calls as [|ms calls IH]; intros w; simpl; [done|]. by rewrite IH. Qed.

Lemma conclude_state item s' ps w :
  state (this (conclude listen item s' ps w)) = s'.
Proof.
  unfold conclude, call_setState. simpl.
  destruct listen, (deferredPromise item); simpl;
    by destruct (setState (this w)).
Qed.

Lemma conclude_queue item s' ps w :
  mutatorsQueue (conclude listen item s' ps w) = mutatorsQueue w.
Proof.
  unfold conclude, call_setState.
  by destruct listen, (deferredPromise item), (setState _).
Qed.

Lemma conclude_trace item s' ps w :
  exists tail,
    trace (conclude listen item s' ps w) = trace w ++ tail
    /\ engine_calls tail = [].
Proof.
  unfold conclude, call_setState.
  destruct listen, (deferredPromise item); simpl;
    destruct (setState (this w)); simpl;
    rewrite <- ?app_assoc; eexists; (split; [reflexivity|done]).
Qed.

Section Reentrant.

Variable fr : @World State Patch -> @Completion State Patch unit.
Hypothesis fr_guard : forall w, Draining w -> fr w = Ret tt w.

Lemma iteration_returns item w d ws calls :
  Draining w -> quiet_listener listen ->
  run (mutator item) (state (this w)) (state (this w)) = Returns d ws calls ->
  iteration listen APP_ENV fr item w
  = Ret tt (conclude listen item d
              (if negb (production APP_ENV) then ws else [])
              (enqueue_all calls
                 (log (EvCreate (state (this w)) (state (this w))
                                (negb (production APP_ENV))) w))).
Proof.
  intros D QL E. unfold iteration, create. rewrite E.
  rewrite !(reenter_draining fr fr_guard) by done.
  destruct (production APP_ENV); simpl;
    unfold call_listen, conclude; rewrite enqueue_all_this; simpl;
    destruct listen as [l|] eqn:EL; simpl;
    rewrite ?(QL l _ eq_refl); simpl; by destruct (deferredPromise item).
Qed.

Lemma iteration_throws item w calls :
  Draining w ->
  run (mutator item) (state (this w)) (state (this w)) = Throws calls ->
  iteration listen APP_ENV fr item w
  = Exn (enqueue_all calls
           (log (EvCreate (state (this w)) (state (this w))
                          (negb (production APP_ENV))) w)).
Proof.
  intros D E. unfold iteration, create. rewrite E. unfold then_throw.
  rewrite !(reenter_draining fr fr_guard) by done.
  by destruct (production APP_ENV).
Qed.


(** The loop up to a throwing step behind a prefix of quiet ones. *)
Lemma while_throws prefix : forall n w item rest calls,
  mutatorsQueue w = prefix ++ item :: rest ->
  Forall (fun it => quiet (mutator it)) prefix ->
  quiet_listener listen ->
  run (mutator item)
      (foldl apply_mutator (state (this w)) (map mutator prefix))
      (foldl apply_mutator (state (this w)) (map mutator prefix))
  = Throws calls ->
  length prefix < n ->
  while listen APP_ENV fr n w
  = Exn (enqueue_all calls
           (log (EvCreate
                   (foldl apply_mutator (state (this w)) (map mutator prefix))
                   (foldl apply_mutator (state (this w)) (map mutator prefix))
                   (negb (production APP_ENV)))
                (set_queue rest
                   (set_isFlushing true
                      (foldl (applied listen APP_ENV) w prefix))))).
Proof.
  induction prefix as [|it prefix IH]; intros n w item rest calls EQ QS QL T LT;
    (destruct n as [|n]; [simpl in LT; lia|]); simpl; rewrite EQ; simpl.
  - rewrite (iteration_throws item _ calls); done.
  - inversion QS as [|? ? Q1 Q2]; subst.
    rewrite iteration_quiet by done. simpl.
    rewrite (IH n _ item rest calls); try done.
    + rewrite applied_state. simpl.
      rewrite !applied_set_queue, !applied_set_isFlushing.
      rewrite !foldl_applied_set_queue, !foldl_applied_set_isFlushing.
      reflexivity.
    + by rewrite applied_queue.
    + by rewrite applied_state.
    + simpl in LT. lia.
Qed.

End Reentrant.

(** ** C3 *)

Lemma quiet_items_of ms : forall len idx dp,
  Forall quiet ms ->
  Forall (fun it => quiet (mutator it)) (items_of len idx ms dp).
Proof.
  induction ms as [|m ms IH]; intros len idx dp QS; simpl; [done|].
  inversion QS; subst. constructor; [done|]. by apply IH.
Qed.

Lemma length_items_of ms : forall len idx dp,
  length (items_of len idx ms dp) = length ms.
Proof. induction ms as [|m ms IH]; intros; simpl; [done|]. by rewrite IH. Qed.


(** ** Calls that reach another context object *)

Lemma applied_others w item :
  others (applied listen APP_ENV w item) = others w.
Proof.
  unfold applied, conclude, call_setState.
  by destruct listen, (deferredPromise item), (setState _).
Qed.

Lemma switch_Some k c w :
  others w !! k = Some c ->
  switch k w = set_others (<[k := this w]> (others w)) (set_this c w).
Proof. unfold switch. by intros ->. Qed.

Lemma switch_push k item w : switch k (push item w) = push item (switch k w).
Proof. unfold switch, push. simpl. by destruct (others w !! k). Qed.

(** The [add] of context object [k] is the [add] of the store in which
    that object is the one in use. *)
Lemma add_flush_of k fuel m dp w :
  add (flush_of listen APP_ENV k fuel) m dp w
  = match add (flush listen APP_ENV fuel) m dp (switch k w) with
    | Ret _ w' => Ret tt (switch k w')
    | Exn w' => Exn (switch k w')
    | Fuel => Fuel
    end.
Proof. unfold add, flush_of. by rewrite switch_push. Qed.

Lemma switch_back k c w w' :
  others w !! k = Some c ->
  others w' = others (switch k w) ->
  this (switch k w') = this w
  /\ others (switch k w') !! k = Some (this w')
  /\ mutatorsQueue (switch k w') = mutatorsQueue w'
  /\ trace (switch k w') = trace w'
  /\ promises (switch k w') = promises w'.
Proof.
  intros E E'. pose proof (lookup_lt_Some _ _ _ E) as LT.
  rewrite (switch_Some k c w E) in E'. simpl in E'.
  assert (EK : others w' !! k = Some (this w))
    by (rewrite E'; by apply list_lookup_insert_eq).
  rewrite (switch_Some k _ w' EK). simpl.
  split; [done|]. split; [|done].
  apply list_lookup_insert_eq. rewrite E', length_insert. done.
Qed.


Lemma add_foreign_idle k c fuel m dp w :
  others w !! k = Some c -> isFlushing c = false -> mutatorsQueue w = [] ->
  quiet m -> quiet_listener listen ->
  add (flush_of listen APP_ENV k (S (S fuel))) m dp w
  = Ret tt (switch k (applied listen APP_ENV (switch k w) (mkItem m dp))).
Proof.
  intros E F EQ Q QL. rewrite add_flush_of.
  rewrite add_idle_quiet; try done.
  rewrite (switch_Some k c w E). by split.
Qed.

Lemma forEach_foreign_idle k fuel ms : forall len idx dp c w,
  others w !! k = Some c -> isFlushing c = false -> mutatorsQueue w = [] ->
  Forall quiet ms -> quiet_listener listen ->
  exists w' c',
    forEach (flush_of listen APP_ENV k (S (S fuel))) len idx ms dp w
    = Ret tt w'
    /\ this w' = this w
    /\ mutatorsQueue w' = []
    /\ others w' !! k = Some c'
    /\ isFlushing c' = false
    /\ state c' = foldl apply_mutator (state c) ms
    /\ trace w'
       = trace w ++ events listen APP_ENV (state c) (items_of len idx ms dp).
Proof.
  induction ms as [|m ms IH]; intros len idx dp c w E F EQ QS QL.
  - exists w, c. simpl. by rewrite app_nil_r.
  - apply Forall_cons in QS as [Q1 Q2].
    assert (STEP : forall o,
      exists w1 c1,
        add (flush_of listen APP_ENV k (S (S fuel))) m o w = Ret tt w1
        /\ this w1 = this w
        /\ mutatorsQueue w1 = []
        /\ others w1 !! k = Some c1
        /\ isFlushing c1 = false
        /\ state c1 = apply_mutator (state c) m
        /\ trace w1
           = trace w ++ step_events listen APP_ENV (state c) (mkItem m o)).
    { intros o. eexists _, _.
      split; [by apply (add_foreign_idle k c)|].
      set (w0 := applied listen APP_ENV (switch k w) (mkItem m o)).
      destruct (switch_back k c w w0 E) as (T & O & MQ & TR & _);
        [apply applied_others|].
      split; [exact T|]. split.
      { rewrite MQ. unfold w0. rewrite applied_queue.
        by rewrite (switch_Some k c w E). }
      split; [exact O|]. split.
      { unfold w0. rewrite applied_isFlushing.
        by rewrite (switch_Some k c w E). }
      split.
      { unfold w0. rewrite applied_state.
        by rewrite (switch_Some k c w E). }
      rewrite TR. unfold w0. rewrite applied_trace.
      by rewrite (switch_Some k c w E). }
    cbn [forEach items_of].
    destruct (Nat.eqb idx (len - 1)) eqn:EI.
    + destruct (STEP (Some dp)) as (w1 & c1 & -> & T1 & MQ1 & O1 & F1 & S1 & TR1).
      cbn [bind].
      destruct (IH len (S idx) dp c1 w1 O1 F1 MQ1 Q2 QL)
        as (w' & c' & -> & T' & MQ' & O' & F' & S' & TR').
      exists w', c'. split; [done|]. split; [congruence|].
      split; [done|]. split; [done|]. split; [done|]. split.
      * simpl. by rewrite S', S1.
      * rewrite TR', TR1, <- app_assoc, S1. reflexivity.
    + destruct (STEP None) as (w1 & c1 & -> & T1 & MQ1 & O1 & F1 & S1 & TR1).
      cbn [bind].
      destruct (IH len (S idx) dp c1 w1 O1 F1 MQ1 Q2 QL)
        as (w' & c' & -> & T' & MQ' & O' & F' & S' & TR').
      exists w', c'. split; [done|]. split; [congruence|].
      split; [done|]. split; [done|]. split; [done|]. split.
      * simpl. by rewrite S', S1.
      * rewrite TR', TR1, <- app_assoc, S1. reflexivity.
Qed.



(** ** C4 *)

(** C4 (amended). Within a loop iteration the effects occur in this order:
    the engine is entered, the listener is called, [this.state] is set to
    the new state, the completion promise, if the step carries one, is
    resolved with the new state, and last the new state is handed to
    [setState]. *)
Theorem step_effects_in_order fr l item w :
  listen = Some l -> quiet (mutator item) -> quiet_listener listen ->
  exists w',
    iteration listen APP_ENV fr item w = Ret tt w'
    /\ state (this w') = apply_mutator (state (this w)) (mutator item)
    /\ trace w'
       = trace w
         ++ [EvCreate (state (this w)) (state (this w))
                      (negb (production APP_ENV));
             EvListen (mkListenData
                         (apply_mutator (state (this w)) (mutator item))
                         (state (this w))
                         (if negb (production APP_ENV)
                          then writes_of (state (this w)) (mutator item)
                          else []));
             EvAssign (apply_mutator (state (this w)) (mutator item))]
         ++ match deferredPromise item with
            | Some p =>
                [EvResolve p (apply_mutator (state (this w)) (mutator item))]
            | None => []
            end
         ++ [EvSetState (apply_mutator (state (this w)) (mutator item))].
Proof.
  intros EL Q QL. exists (applied listen APP_ENV w item).
  split; [by apply iteration_quiet|].
  split; [apply applied_state|].
  rewrite applied_trace. unfold step_events. by rewrite EL.
Qed.

(** ** C5 *)

Lemma engine_calls_events_args items : forall s,
  engine_calls (events listen APP_ENV s items)
  = map (fun s => (s, s, negb (production APP_ENV)))
        (states_before s (map mutator items)).
Proof.
  induction items as [|it items IH]; intros s; [done|].
  rewrite events_cons, engine_calls_app, engine_calls_step, IH. done.
Qed.

(** Every mutator of a batch gets, as draft base and as second argument,
    the state its own step starts from. *)
Lemma update_passes_preceding_state ms w fuel :
  Forall quiet ms -> quiet_listener listen -> Idle w -> 2 <= fuel ->
  exists w' tr,
    update (flush listen APP_ENV fuel) ms w = Ret (length (promises w)) w'
    /\ trace w' = trace w ++ tr
    /\ map (fun c => snd (fst c)) (engine_calls tr)
       = states_before (state (this w)) ms
    /\ state (this w') = foldl apply_mutator (state (this w)) ms.
Proof.
  intros QS QL I LE. destruct fuel as [|[|fuel]]; [lia|lia|].
  eexists _, _. split; [by apply update_idle_quiet|].
  split; [by rewrite foldl_applied_trace|]. split.
  - rewrite engine_calls_events_args, items_of_mutators, map_map. simpl.
    apply map_id.
  - by rewrite foldl_applied_state, items_of_mutators.
Qed.

(** ** Patches and the environment *)

Lemma production_true :
  production APP_ENV = true <-> APP_ENV = Some "production"%string.
Proof.
  unfold production. destruct APP_ENV as [v|]; [|by split].
  destruct (string_dec v "production") as [->|NE]; split; try done.
  intros [= ->]. done.
Qed.

(** The patches handed to the listener are what the engine reports when
    [APP_ENV] is not production; under production they are the empty array
    and the engine is entered without [enablePatches]. *)
Lemma listener_patches_follow_mode fr l item w :
  listen = Some l -> quiet (mutator item) -> quiet_listener listen ->
  exists w' tr,
    iteration listen APP_ENV fr item w = Ret tt w'
    /\ trace w' = trace w ++ tr
    /\ listener_calls tr
       = [mkListenData (apply_mutator (state (this w)) (mutator item))
            (state (this w))
            (if negb (production APP_ENV)
             then writes_of (state (this w)) (mutator item) else [])]
    /\ engine_calls tr
       = [(state (this w), state (this w), negb (production APP_ENV))].
Proof.
  intros EL Q QL.
  eexists _, _. split; [by apply iteration_quiet|].
  split; [apply applied_trace|].
  split; [by apply (listener_calls_step l)|].
  apply engine_calls_step.
Qed.

(** ** C7 *)

(** C7. [useStore] called where no [connect] provides the context gets the
    default context, whose [hasProvider] is false, and throws at once the
    error saying that the component must be wrapped with connect(...); it
    returns no state and no [update]. *)
Theorem useStore_outside_connect_throws :
  useStore listen APP_ENV (useContext (Patch := Patch) initialState None)
  = inl usage_error
  /\ (forall c : @StoreContext State,
        hasProvider c = false -> useStore listen APP_ENV c = inl usage_error)
  /\ String.index 0 "must be wrapped with" usage_error = Some 10.
Proof.
  split; [|split].
  - unfold useContext, Context_default, createStore, useStore.
    by destruct (stateReader initialState 0).
  - intros c E. unfold useStore. by rewrite E.
  - reflexivity.
Qed.

(** ** Invariants of arbitrary runs

    [Inv] is kept by every primitive effect; [Ok] says which promises may
    travel through the queue.  Then every run of [flush] and [update] keeps
    [Inv], whatever the user code does and however it ends. *)

Section Preservation.

Variable Inv : @World State Patch -> Prop.
Variable Ok : option nat -> Prop.

Hypothesis Ok_none : Ok None.
Hypothesis Inv_pDefer : forall w,
  Inv w -> Inv (snd (pDefer w)) /\ Ok (Some (fst (pDefer w))).
Hypothesis Inv_push : forall w m dp,
  Inv w -> Ok dp -> Inv (push (mkItem m dp) w).
Hypothesis Inv_shift : forall w item rest,
  Inv w -> mutatorsQueue w = item :: rest ->
  Inv (set_queue rest (set_isFlushing true w))
  /\ Ok (deferredPromise item).
Hypothesis Inv_enter : forall w e,
  Inv w -> Inv (log (EvCreate (state (this w)) (state (this w)) e) w).
Hypothesis Inv_listen : forall w d, Inv w -> Inv (log (EvListen d) w).
Hypothesis Inv_assign : forall w s,
  Inv w -> Inv (log (EvAssign s) (set_state s w)).
Hypothesis Inv_resolve : forall w p v,
  Inv w -> Ok (Some p) -> Inv (resolve p v w).
Hypothesis Inv_setState : forall w s, Inv w -> Inv (call_setState s w).
Hypothesis Inv_end : forall w, Inv w -> Inv (set_isFlushing false w).

Lemma holds_bind {A B : Type} (c : @Completion State Patch A)
    (k : A -> @World State Patch -> @Completion State Patch B) :
  holds Inv c -> (forall a w, Inv w -> holds Inv (k a w)) -> holds Inv (bind c k).
Proof. destruct c; simpl; auto. Qed.

Lemma holds_then_throw {A B : Type} (c : @Completion State Patch A) :
  holds Inv c -> holds Inv (then_throw (B := B) c).
Proof. intros H. apply holds_bind; [done|]. by intros. Qed.

Section Nested.

Variable fr : @World State Patch -> @Completion State Patch unit.
Hypothesis fr_holds : forall w, Inv w -> holds Inv (fr w).

Lemma add_holds m dp w : Inv w -> Ok dp -> holds Inv (add fr m dp w).
Proof. intros I O. unfold add. apply fr_holds. by apply Inv_push. Qed.

Lemma forEach_holds ms : forall len idx dp w,
  Inv w -> Ok (Some dp) -> holds Inv (forEach fr len idx ms dp w).
Proof.
  induction ms as [|m ms IH]; intros len idx dp w I O; simpl; [done|].
  apply holds_bind.
  - destruct (Nat.eqb idx (len - 1)); by apply add_holds.
  - intros _ w' I'. by apply IH.
Qed.

Lemma update_holds ms w : Inv w -> holds Inv (update fr ms w).
Proof.
  intros I. unfold update.
  destruct (Inv_pDefer w I) as [I1 O1].
  destruct (pDefer w) as [dp w1]. simpl in I1, O1.
  apply holds_bind; [by apply forEach_holds|]. by intros.
Qed.

Lemma reenter_holds calls : forall w,
  Inv w -> holds Inv (reenter fr calls w).
Proof.
  induction calls as [|ms calls IH]; intros w I; simpl; [done|].
  apply holds_bind; [by apply update_holds|]. intros _ w' I'. by apply IH.
Qed.

Lemma call_listen_holds s' ps w :
  Inv w -> holds Inv (call_listen listen fr s' ps w).
Proof.
  intros I. unfold call_listen. destruct listen as [l|]; [|done].
  destruct (l _) as [calls|calls].
  - apply holds_then_throw, reenter_holds. by apply Inv_listen.
  - apply reenter_holds. by apply Inv_listen.
Qed.

Lemma create_holds e m w :
  Inv w -> holds Inv (create fr e m w).
Proof.
  intros I. unfold create.
  destruct (run _ _ _) as [calls|d ws calls].
  - apply holds_then_throw, reenter_holds. by apply Inv_enter.
  - apply holds_bind; [apply reenter_holds; by apply Inv_enter|]. by intros.
Qed.

Lemma iteration_holds item w :
  Inv w -> Ok (deferredPromise item) ->
  holds Inv (iteration listen APP_ENV fr item w).
Proof.
  intros I O. unfold iteration. apply holds_bind.
  - destruct (negb (production APP_ENV)); [by apply create_holds|].
    apply holds_bind; [by apply create_holds|]. by intros.
  - intros r w1 I1. apply holds_bind; [by apply call_listen_holds|].
    intros _ w2 I2. simpl. apply Inv_setState.
    destruct (deferredPromise item) as [p|].
    + apply Inv_resolve; [|done]. by apply Inv_assign.
    + by apply Inv_assign.
Qed.

Lemma while_holds n : forall w,
  Inv w -> holds Inv (while listen APP_ENV fr n w).
Proof.
  induction n as [|n IH]; intros w I; simpl;
    destruct (mutatorsQueue w) as [|item rest] eqn:EQ;
    try done; try (by apply Inv_end).
  destruct (Inv_shift w item rest I EQ) as [I1 O1].
  apply holds_bind; [by apply iteration_holds|].
  intros _ w' I'. by apply IH.
Qed.

End Nested.

Lemma flush_holds fuel : forall w,
  Inv w -> holds Inv (flush listen APP_ENV fuel w).
Proof.
  induction fuel as [|fuel IH]; intros w I; simpl; [done|].
  destruct (isFlushing (this w)); [done|].
  by apply while_holds.
Qed.

Lemma update_flush_holds fuel ms w :
  Inv w -> holds Inv (update (flush listen APP_ENV fuel) ms w).
Proof. apply update_holds. apply flush_holds. Qed.

End Preservation.

(** ** Scripts of [update] calls on a draining context *)

Lemma script_updates_draining later : forall w fuel,
  Draining w ->
  script initialState listen APP_ENV (S fuel) (map DoUpdate later) w
  = Some (enqueue_all later w).
Proof.
  induction later as [|ms later IH]; intros w fuel D; [done|].
  cbn [map script perform].
  rewrite (update_draining (flush listen APP_ENV (S fuel))); [|by intros; apply flush_guard|done].
  apply IH. by apply enqueue_draining.
Qed.

Lemma enqueue_all_mutators calls : forall w,
  exists added,
    mutatorsQueue (enqueue_all calls w) = mutatorsQueue w ++ added
    /\ map mutator added = concat calls.
Proof.
  induction calls as [|ms calls IH]; intros w; simpl.
  - exists []. by rewrite app_nil_r.
  - destruct (IH (enqueue ms w)) as (added & -> & EM). simpl.
    eexists. rewrite <- app_assoc. split; [reflexivity|].
    by rewrite map_app, items_of_mutators, EM.
Qed.

(** ** C9 *)

(** C9 (amended). If a mutator throws during a drain, the exception leaves
    [flush] (and so the [add] and [update] that called it), the failing
    step is no longer in the queue, the steps behind it stay queued, and
    the context object keeps [isFlushing] set: every later [update] made
    through that same context object appends its steps and none of them is
    applied.  (A context object built by a later render of the connected
    component has its own [isFlushing], which is false.) *)
Theorem throwing_mutator_blocks_its_context prefix item rest calls w fuel :
  isFlushing (this w) = false ->
  mutatorsQueue w = prefix ++ item :: rest ->
  Forall (fun it => quiet (mutator it)) prefix ->
  quiet_listener listen ->
  run (mutator item)
      (foldl apply_mutator (state (this w)) (map mutator prefix))
      (foldl apply_mutator (state (this w)) (map mutator prefix))
  = Throws calls ->
  length prefix + 1 < fuel ->
  exists w' extra,
    flush listen APP_ENV fuel w = Exn w'
    /\ mutatorsQueue w' = rest ++ extra
    /\ map mutator extra = concat calls
    /\ Draining w'
    /\ state (this w')
       = foldl apply_mutator (state (this w)) (map mutator prefix)
    /\ length (engine_calls (trace w'))
       = length (engine_calls (trace w)) + length prefix + 1
    /\ forall later fuel',
         exists w'' added,
           script initialState listen APP_ENV (S fuel')
                  (map DoUpdate later) w' = Some w''
           /\ mutatorsQueue w'' = mutatorsQueue w' ++ added
           /\ map mutator added = concat later
           /\ Draining w''
           /\ state (this w'') = state (this w')
           /\ trace w'' = trace w'.
Proof.
  intros E EQ QS QL T LT. destruct fuel as [|fuel]; [lia|].
  rewrite flush_idle by done. unfold drain.
  rewrite (while_throws skip_flush skip_flush_guard prefix fuel w item rest
             calls); try done; [|lia].
  match goal with |- context [Exn ?W] => set (w' := W) end.
  assert (D : Draining w').
  { unfold w'. by apply enqueue_all_draining. }
  destruct (enqueue_all_mutators calls
              (log (EvCreate
                      (foldl apply_mutator (state (this w)) (map mutator prefix))
                      (foldl apply_mutator (state (this w)) (map mutator prefix))
                      (negb (production APP_ENV)))
                 (set_queue rest
                    (set_isFlushing true
                       (foldl (applied listen APP_ENV) w prefix)))))
    as (extra & EX & EM).
  exists w', extra. split; [done|]. split; [exact EX|]. split; [exact EM|].
  split; [exact D|]. split; [|split].
  - unfold w'. rewrite enqueue_all_this. simpl.
    apply foldl_applied_state.
  - unfold w'. rewrite enqueue_all_trace. cbn [log trace set_queue
      set_isFlushing set_this].
    rewrite foldl_applied_trace, !engine_calls_app, !length_app.
    rewrite engine_calls_events. simpl. lia.
  - intros later fuel'.
    destruct (enqueue_all_mutators later w') as (added & EA & EMA).
    exists (enqueue_all later w'), added.
    split; [by apply script_updates_draining|].
    split; [exact EA|]. split; [exact EMA|].
    split; [by apply enqueue_all_draining|].
    split; [by rewrite enqueue_all_this|apply enqueue_all_trace].
Qed.

(** ** C8 *)

Lemma initialised_app (hs1 hs2 : list (option State)) :
  initialised (hs1 ++ hs2) = initialised hs1 + initialised hs2.
Proof. unfold initialised. by rewrite omap_app, length_app. Qed.

Lemma initialised_insert_Some (hs : list (option State)) : forall i s0 s,
  hs !! i = Some (Some s0) ->
  initialised (<[i := Some s]> hs) = initialised hs.
Proof.
  unfold initialised.
  induction hs as [|c hs IH]; intros [|i] s0 s E; simpl in *; try done.
  - by injection E as ->.
  - destruct c; simpl; [f_equal|]; exact (IH i s0 s E).
Qed.

Lemma initialised_insert_None (hs : list (option State)) : forall i s,
  hs !! i = Some None ->
  initialised (<[i := Some s]> hs) = S (initialised hs).
Proof.
  unfold initialised.
  induction hs as [|c hs IH]; intros [|i] s E; simpl in *; try done.
  - by injection E as ->.
  - destruct c; simpl; [f_equal|]; exact (IH i s E).
Qed.

Lemma update_keeps_reads_accounted fuel ms w :
  reads_accounted initialState w ->
  holds (reads_accounted initialState)
        (update (flush listen APP_ENV fuel) ms w).
Proof.
  apply (update_flush_holds (reads_accounted initialState) (fun _ => True));
    try done.
  intros w' s [ER ES]. unfold call_setState, reads_accounted.
  destruct (setState (this w')) as [|i] eqn:E; simpl; rewrite E.
  - split; [done|]. intros i' [=].
  - destruct (ES i eq_refl) as [s0 E0]. split.
    + rewrite ER. unfold expected_reads.
      destruct initialState; [done|].
      by rewrite (initialised_insert_Some _ _ s0).
    + intros i' [= <-]. exists s. apply list_lookup_insert_eq.
      by apply lookup_lt_Some in E0.
Qed.

Lemma render_keeps_reads_accounted i w :
  reads_accounted initialState w ->
  reads_accounted initialState (render initialState i w).
Proof.
  intros [ER ES]. unfold render.
  destruct (hooks w !! i) as [[s|]|] eqn:E; [ | |done].
  - simpl. split; [done|]. intros i' [= <-]. by exists s.
  - unfold useState, reads_accounted, expected_reads in *.
    destruct initialState as [s|f]; simpl.
    + split; [done|]. intros i' [= <-]. exists s.
      apply list_lookup_insert_eq. by apply lookup_lt_Some in E.
    + split.
      * rewrite ER. by rewrite initialised_insert_None.
      * intros i' [= <-]. exists (f tt).
        apply list_lookup_insert_eq. by apply lookup_lt_Some in E.
Qed.

Lemma mount_keeps_reads_accounted w :
  reads_accounted initialState w ->
  reads_accounted initialState (snd (mount w)).
Proof.
  intros [ER ES]. unfold mount, reads_accounted, expected_reads in *. simpl.
  split.
  - rewrite ER. destruct initialState; [done|].
    rewrite initialised_app. unfold initialised at 3. simpl. lia.
  - intros i Ei. destruct (ES i Ei) as [s E]. exists s.
    by apply lookup_app_l_Some.
Qed.

Lemma script_keeps_reads_accounted fuel ops : forall w w',
  reads_accounted initialState w ->
  script initialState listen APP_ENV fuel ops w = Some w' ->
  reads_accounted initialState w'.
Proof.
  induction ops as [|op ops IH]; intros w w' I; simpl.
  - by intros [= <-].
  - destruct op as [|i|ms]; simpl.
    + apply IH. by apply mount_keeps_reads_accounted.
    + apply IH. by apply render_keeps_reads_accounted.
    + pose proof (update_keeps_reads_accounted fuel ms w I) as H.
      destruct (update _ _ _) as [p w1|w1|]; simpl in H; try done;
        by apply IH.
Qed.

Lemma createStore_reads_accounted :
  reads_accounted initialState (createStore (Patch := Patch) initialState).
Proof.
  unfold reads_accounted, expected_reads, createStore, stateReader.
  destruct initialState; simpl; split; try done.
Qed.

(** C8 (amended). A producer [initialState] is evaluated once by
    [createStore], and once more at the first render of each mounted
    component returned by [connect], where [useState] runs it as its lazy
    initialiser; it is evaluated by no later render and by no [update],
    whatever the mutators do. *)
Theorem producer_evaluated_at_construction_and_first_renders :
  reads (createStore (Patch := Patch) initialState)
  = expected_reads initialState []
  /\ (forall fuel ops w',
        script initialState listen APP_ENV fuel ops
               (createStore initialState) = Some w' ->
        reads w' = expected_reads initialState (hooks w'))
  /\ (forall i w s,
        hooks w !! i = Some (Some s) ->
        reads (render initialState i w) = reads w)
  /\ (forall fuel ms w,
        holds (fun w' => reads w' = reads w)
              (update (flush listen APP_ENV fuel) ms w)).
Proof.
  split; [|split; [|split]].
  - unfold createStore, stateReader, expected_reads.
    by destruct initialState.
  - intros fuel ops w' E. apply proj1 with (B := forall i,
      setState (this w') = Dispatch i ->
      exists s, hooks w' !! i = Some (Some s)).
    by apply (script_keeps_reads_accounted fuel ops _ w'
                createStore_reads_accounted).
  - intros i w s E. unfold render. by rewrite E.
  - intros fuel ms w.
    apply (update_flush_holds (fun w' => reads w' = reads w)
                              (fun _ => True)); try done.
    intros w' s E. unfold call_setState. by destruct (setState (this w')).
Qed.

(** ** C5, for arbitrary user code *)

Lemma last_assigned_app tr1 tr2 : forall cur,
  last_assigned cur (tr1 ++ tr2)
  = last_assigned (last_assigned cur tr1) tr2.
Proof.
  induction tr1 as [|e tr1 IH]; intros cur; [done|].
  destruct e; simpl; apply IH.
Qed.

Lemma handed_current_app tr1 tr2 : forall cur,
  handed_current cur tr1 ->
  handed_current (last_assigned cur tr1) tr2 ->
  handed_current cur (tr1 ++ tr2).
Proof.
  induction tr1 as [|e tr1 IH]; intros cur H1 H2; [done|].
  destruct e; simpl in *; try (by apply IH).
  destruct H1 as (-> & -> & H1). repeat split. by apply IH.
Qed.

(** Appending one event to a run that is fed so far. *)
Lemma fed_from_log w0 w e :
  fed_from w0 w ->
  handed_current (state (this w)) [e] ->
  last_assigned (state (this w)) [e] = state (this w) ->
  fed_from w0 (log e w).
Proof.
  intros (tr & ET & HC & ES) He Hl. exists (tr ++ [e]). simpl.
  split; [by rewrite ET, <- app_assoc|]. split.
  - apply handed_current_app; [done|]. by rewrite <- ES.
  - by rewrite last_assigned_app, <- ES, Hl.
Qed.

Lemma update_feeds_current fuel ms w0 w :
  fed_from w0 w ->
  holds (fed_from w0) (update (flush listen APP_ENV fuel) ms w).
Proof.
  apply (update_flush_holds (fed_from w0) (fun _ => True)); try done.
  - intros w' e F. by apply fed_from_log.
  - intros w' d F. by apply fed_from_log.
  - intros w' s (tr & ET & HC & ES). exists (tr ++ [EvAssign s]). simpl.
    split; [by rewrite ET, <- app_assoc|]. split.
    + by apply handed_current_app.
    + by rewrite last_assigned_app.
  - intros w' p v F _. unfold resolve.
    apply fed_from_log; [|done|done].
    destruct F as (tr & ET & HC & ES). by exists tr.
  - intros w' s F. unfold call_setState.
    apply fed_from_log; [|done|done].
    destruct F as (tr & ET & HC & ES).
    destruct (setState (this w')); by exists tr.
Qed.

Lemma fed_from_refl w : fed_from w w.
Proof. exists []. by rewrite app_nil_r. Qed.

(** ** C10 *)

Lemma update_keeps_unreachable p fuel ms w :
  unreachable p w ->
  holds (unreachable p) (update (flush listen APP_ENV fuel) ms w).
Proof.
  apply (update_flush_holds (unreachable p) (fun dp => dp <> Some p));
    try done.
  - intros w' [EP EQ]. simpl. split; [split|].
    + by apply lookup_app_l_Some.
    + done.
    + apply lookup_lt_Some in EP. intros [= E]. lia.
  - intros w' m dp [EP EQ] O. split; [done|]. simpl.
    apply Forall_app. split; [done|]. by constructor.
  - intros w' item rest [EP EQ] E. rewrite E in EQ.
    inversion EQ; subst. by split.
  - intros w' q v [EP EQ] O. split; [|done]. simpl. unfold settle.
    destruct (promises w' !! q) as [[]|]; try done.
    rewrite list_lookup_insert_ne; [done|]. by intros ->.
  - intros w' s [EP EQ]. unfold call_setState.
    by destruct (setState (this w')).
Qed.

Lemma script_keeps_unreachable p fuel ops : forall w w',
  unreachable p w ->
  script initialState listen APP_ENV fuel ops w = Some w' ->
  unreachable p w'.
Proof.
  induction ops as [|op ops IH]; intros w w' I; simpl.
  - by intros [= <-].
  - destruct op as [|i|ms]; simpl.
    + by apply IH.
    + apply IH. unfold render. destruct (hooks w !! i) as [[s|]|]; try done.
      unfold useState. by destruct (stateReader _ _).
    + pose proof (update_keeps_unreachable p fuel ms w I) as H.
      destruct (update _ _ _) as [q w1|w1|]; simpl in H; try done;
        by apply IH.
Qed.

(** C10. [update()] with no mutator enqueues nothing, leaves the context
    (and so its state) and the trace as they are, so neither the engine nor
    the listener is called, and returns a fresh promise that stays pending
    whatever is done to the store afterwards. *)
Theorem update_without_mutators_never_settles w fuel :
  allocated w ->
  exists w',
    update (flush listen APP_ENV fuel) [] w = Ret (length (promises w)) w'
    /\ mutatorsQueue w' = mutatorsQueue w
    /\ this w' = this w
    /\ trace w' = trace w
    /\ promises w' = promises w ++ [Pending]
    /\ forall fuel' ops w'',
         script initialState listen APP_ENV fuel' ops w' = Some w'' ->
         promises w'' !! length (promises w) = Some Pending.
Proof.
  intros A. eexists. split; [reflexivity|]. simpl.
  split; [done|]. split; [done|]. split; [done|]. split; [done|].
  intros fuel' ops w'' E.
  apply (script_keeps_unreachable (length (promises w)) fuel' ops
           (set_promises (promises w ++ [Pending]) w) w''); [|exact E].
  split; simpl.
  - by apply list_lookup_middle.
  - eapply Forall_impl; [exact A|]. simpl. intros it H E'.
    apply H in E'. lia.
Qed.

End Facts.

(** * The claims on the counter store *)

Lemma quiet_assign_count f : quiet (assign_count f).
Proof. intros b o. eexists _, _. reflexivity. Qed.

Lemma quiet_recorder : quiet_listener (Some recorder).
Proof. by intros l d [= <-]. Qed.

Lemma idle_counter_at n : Idle (counter_at n).
Proof. by split. Qed.

(** ** C5 *)

(** C5. Each mutator is handed, as second argument, the state that its own
    step starts from, which is the output of the step before it and not the
    state the enclosing [update] started with.  Whatever the user code does
    and however the call ends, every entry into the engine during an
    [update] passes the state last assigned before it; for a batch of
    mutators that return normally on an idle container the second arguments
    are the successive intermediate states.  On [{count: 3}],
    [draft.count = oldState.count + 1] resolves with [{count: 4}]; behind a
    step that sets the count to 10 it resolves with [{count: 11}]. *)
Theorem mutator_receives_state_preceding_its_step :
  (forall (State Patch : Type) (listen : option (@Listener State Patch))
          (APP_ENV : option string) (ms : list (@Mutator State Patch))
          (w : @World State Patch) (fuel : nat),
      holds (fed_from w) (update (flush listen APP_ENV fuel) ms w))
  /\ (forall (State Patch : Type) (listen : option (@Listener State Patch))
             (APP_ENV : option string) (ms : list (@Mutator State Patch))
             (w : @World State Patch) (fuel : nat),
        Forall quiet ms -> quiet_listener listen -> Idle w -> 2 <= fuel ->
        exists w' tr,
          update (flush listen APP_ENV fuel) ms w
          = Ret (length (promises w)) w'
          /\ trace w' = trace w ++ tr
          /\ map (fun c => snd (fst c)) (engine_calls tr)
             = states_before (state (this w)) ms
          /\ state (this w') = foldl apply_mutator (state (this w)) ms)
  /\ (exists w',
        update (flush None None 2) [from_prior] (counter_at 3) = Ret 0 w'
        /\ engine_calls (trace w') = [(mkCounter 3, mkCounter 3, true)]
        /\ promises w' !! 0 = Some (Fulfilled (mkCounter 4))
        /\ state (this w') = mkCounter 4)
  /\ (exists w',
        update (flush None None 2) [set_count 10; from_prior] (counter_at 3)
        = Ret 0 w'
        /\ map (fun c => snd (fst c)) (engine_calls (trace w'))
           = [mkCounter 3; mkCounter 10]
        /\ promises w' !! 0 = Some (Fulfilled (mkCounter 11))).
Proof.
  split; [|split; [|split]].
  - intros. apply update_feeds_current, fed_from_refl.
  - intros. by apply update_passes_preceding_state.
  - eexists. split; [vm_compute; reflexivity|]. by vm_compute.
  - eexists. split; [vm_compute; reflexivity|]. by vm_compute.
Qed.

Lemma mutator_receives_state_preceding_its_step_witness :
  Forall quiet [set_count 10; from_prior]
  /\ quiet_listener (Some recorder)
  /\ Idle (counter_at 3)
  /\ 2 <= 2
  /\ exists w' tr,
       update (flush (Some recorder) None 2) [set_count 10; from_prior]
              (counter_at 3)
       = Ret (length (promises (counter_at 3))) w'
       /\ trace w' = trace (counter_at 3) ++ tr
       /\ map (fun c => snd (fst c)) (engine_calls tr)
          = states_before (state (this (counter_at 3)))
                          [set_count 10; from_prior]
       /\ state (this w')
          = foldl apply_mutator (state (this (counter_at 3)))
                  [set_count 10; from_prior].
Proof.
  assert (Q : Forall quiet [set_count 10; from_prior])
    by (repeat constructor; apply quiet_assign_count).
  split; [exact Q|]. split; [exact quiet_recorder|].
  split; [exact (idle_counter_at 3)|]. split; [lia|].
  apply (proj1 (proj2 mutator_receives_state_preceding_its_step));
    [exact Q|exact quiet_recorder|exact (idle_counter_at 3)|lia].
Defined.

(** ** The scenarios of the test-suite *)

(** ** C6 *)

Lemma quiet_assigning vs : quiet (assigning vs).
Proof. intros b o. by eexists _, _. Qed.

Lemma assign_count_assigning f :
  assign_count f = assigning (fun d o => [f d o]).
Proof. reflexivity. Qed.

(** C6 (amended). The patches handed to the listener are what the engine
    reports for the step when [APP_ENV] is not production, and the empty
    array under production, where the engine is entered without
    [enablePatches].  The engine reports a change, not a write: on the
    counter, the patches of a step are non-empty exactly when [APP_ENV] is
    not production and the step leaves a state other than the one it
    started from; a step with non-empty patches has performed a write, but
    not the other way round. *)
Theorem listener_patches_iff_diagnostic_and_change :
  (forall (State Patch : Type) (listen : option (@Listener State Patch))
          (APP_ENV : option string) fr l item (w : @World State Patch),
      listen = Some l -> quiet (mutator item) -> quiet_listener listen ->
      exists w' tr d,
        iteration listen APP_ENV fr item w = Ret tt w'
        /\ trace w' = trace w ++ tr
        /\ listener_calls tr = [d]
        /\ (APP_ENV = Some "production"%string ->
            patches d = []
            /\ engine_calls tr = [(state (this w), state (this w), false)])
        /\ (APP_ENV <> Some "production"%string ->
            patches d = writes_of (state (this w)) (mutator item)
            /\ engine_calls tr = [(state (this w), state (this w), true)]))
  /\ (forall (APP_ENV : option string) fr l vs dp
             (w : @World Counter CPatch),
        quiet_listener (Some l) ->
        exists w' tr d,
          iteration (Some l) APP_ENV fr (mkItem (assigning vs) dp) w
          = Ret tt w'
          /\ trace w' = trace w ++ tr
          /\ listener_calls tr = [d]
          /\ oldState d = state (this w)
          /\ newState d = state (this w')
          /\ (patches d <> []
              <-> APP_ENV <> Some "production"%string
                  /\ newState d <> oldState d)
          /\ (patches d <> [] -> performs_write vs (state (this w)))).
Proof.
  split.
  - intros State Patch listen APP_ENV fr l item w EL Q QL.
    destruct (listener_patches_follow_mode listen APP_ENV fr l item w
                EL Q QL) as (w' & tr & E & ET & LC & EC).
    exists w', tr. eexists. split; [exact E|]. split; [exact ET|].
    split; [exact LC|]. cbn [patches]. rewrite EC.
    destruct (production APP_ENV) eqn:EP; cbn [negb].
    + apply production_true in EP. split; [done|]. by intros NP.
    + split; [|done]. intros HP. apply production_true in HP. congruence.
  - intros APP_ENV fr l vs dp w QL.
    set (it := mkItem (assigning vs) dp).
    assert (E : iteration (Some l) APP_ENV fr it w
                = Ret tt (applied (Some l) APP_ENV w it))
      by (apply iteration_quiet; [apply quiet_assigning|exact QL]).
    exists (applied (Some l) APP_ENV w it),
           (step_events (Some l) APP_ENV (state (this w)) it).
    eexists. split; [exact E|]. split; [apply applied_trace|].
    split; [by apply (listener_calls_step (Some l) APP_ENV l)|].
    cbn [oldState newState patches]. split; [done|].
    split; [by rewrite applied_state|].
    unfold apply_mutator, writes_of, performs_write. cbn [it mutator].
    destruct (state (this w)) as [n]. cbn [assigning run count].
    set (v := List.last (vs n n) n).
    assert (EV : mkCounter v <> mkCounter n <-> v <> n).
    { split; [intros H ->; by apply H|intros H [= ->]; by apply H]. }
    destruct (production APP_ENV) eqn:EP; cbn [negb].
    + apply production_true in EP. split; [|done].
      split; [done|]. by intros [NP _].
    + assert (NP : APP_ENV <> Some "production"%string).
      { intros HP. apply production_true in HP. congruence. }
      destruct (Z.eqb_spec v n) as [EQ|NE].
      * split; [|done]. split; [done|].
        intros [_ H]. apply EV in H. done.
      * split; [split; [intros _; split; [done|by apply EV]|done]|].
        intros _ EN. apply NE. unfold v. by rewrite EN.
Qed.

Lemma listener_patches_iff_diagnostic_and_change_witness :
  (quiet_listener (Some recorder)
   /\ exists w' tr d,
        iteration (Some recorder) None (flush (Some recorder) None 1)
                  (mkItem (assigning (fun d _ => [d + 1; d + 2])%Z) None)
                  (counter_at 0)
        = Ret tt w'
        /\ trace w' = [] ++ tr
        /\ listener_calls tr = [d]
        /\ oldState d = mkCounter 0
        /\ newState d = state (this w')
        /\ (patches d <> []
            <-> None <> Some "production"%string
                /\ newState d <> oldState d)
        /\ (patches d <> []
            -> performs_write (fun d _ => [d + 1; d + 2])%Z (mkCounter 0)))
  /\ (quiet_listener (Some recorder)
      /\ exists w' tr d,
           iteration (Some recorder) (Some "production"%string)
                     (flush (Some recorder) (Some "production"%string) 1)
                     (mkItem (assigning (fun d _ => [d + 1; d + 2])%Z) None)
                     (counter_at 0)
           = Ret tt w'
           /\ trace w' = [] ++ tr
           /\ listener_calls tr = [d]
           /\ oldState d = mkCounter 0
           /\ newState d = state (this w')
           /\ (patches d <> []
               <-> Some "production"%string <> Some "production"%string
                   /\ newState d <> oldState d)
           /\ (patches d <> []
               -> performs_write (fun d _ => [d + 1; d + 2])%Z
                                 (mkCounter 0)))
  /\ (Some recorder = Some recorder
      /\ quiet (mutator (plain (set_count 42)))
      /\ exists w' tr d,
           iteration (Some recorder) None (flush (Some recorder) None 1)
                     (plain (set_count 42)) (counter_at 0)
           = Ret tt w'
           /\ trace w' = [] ++ tr
           /\ listener_calls tr = [d]
           /\ (None = Some "production"%string ->
               patches d = []
               /\ engine_calls tr = [(mkCounter 0, mkCounter 0, false)])
           /\ (None <> Some "production"%string ->
               patches d = [mkPatch "replace"%string ["count"%string] 42]
               /\ engine_calls tr = [(mkCounter 0, mkCounter 0, true)])).
Proof.
  split; [|split].
  - split; [exact quiet_recorder|].
    apply (proj2 listener_patches_iff_diagnostic_and_change None
             (flush (Some recorder) None 1) recorder
             (fun d _ => [d + 1; d + 2])%Z None (counter_at 0)
             quiet_recorder).
  - split; [exact quiet_recorder|].
    apply (proj2 listener_patches_iff_diagnostic_and_change
             (Some "production"%string)
             (flush (Some recorder) (Some "production"%string) 1) recorder
             (fun d _ => [d + 1; d + 2])%Z None (counter_at 0)
             quiet_recorder).
  - split; [done|]. split; [apply quiet_assign_count|].
    apply (proj1 listener_patches_iff_diagnostic_and_change
             Counter CPatch (Some recorder) None
             (flush (Some recorder) None 1) recorder
             (plain (set_count 42)) (counter_at 0)
             eq_refl (quiet_assign_count _) quiet_recorder).
Defined.

(** [update(d => { d.count = 5 })] on [{count: 0}] resolves with
    [{count: 5}], which is also what the component is given to render. *)
Example single_mutator_scenario :
  exists w',
    update (flush None None 2) [set_count 5] (counter_at 0) = Ret 0 w'
    /\ promises w' !! 0 = Some (Fulfilled (mkCounter 5))
    /\ state (this w') = mkCounter 5
    /\ hooks w' = [Some (mkCounter 5)].
Proof. eexists. split; [vm_compute; reflexivity|]. by vm_compute. Qed.

(** The three increments resolve with [{count: 111}] and the listener sees
    the counts 1, 11 and 111. *)
Example batching_scenario :
  exists w',
    update (flush (Some recorder) None 2) three_steps (counter_at 0)
    = Ret 0 w'
    /\ promises w' !! 0 = Some (Fulfilled (mkCounter 111))
    /\ map (fun d => count (newState d)) (listener_calls (trace w'))
       = [1; 11; 111]%Z.
Proof. eexists. split; [vm_compute; reflexivity|]. by vm_compute. Qed.

(** ** Witnesses *)

Lemma quiet_three_steps : Forall quiet three_steps.
Proof. repeat constructor; apply quiet_assign_count. Qed.

Lemma update_resolves_once_with_final_state_witness :
  three_steps <> []
  /\ Forall quiet three_steps
  /\ quiet_listener (Some recorder)
  /\ Idle (counter_at 0)
  /\ 2 <= 2
  /\ exists w' tr,
       update (flush (Some recorder) None 2) three_steps (counter_at 0)
       = Ret (length (promises (counter_at 0))) w'
       /\ promises w' !! length (promises (counter_at 0))
          = Some (Fulfilled (foldl apply_mutator
                                   (state (this (counter_at 0))) three_steps))
       /\ state (this w')
          = foldl apply_mutator (state (this (counter_at 0))) three_steps
       /\ trace w' = trace (counter_at 0) ++ tr
       /\ resolve_log 0 tr
          = [(length three_steps, length (promises (counter_at 0)),
              foldl apply_mutator (state (this (counter_at 0))) three_steps)]
       /\ Idle w'.
Proof.
  split; [done|]. split; [exact quiet_three_steps|].
  split; [exact quiet_recorder|]. split; [exact (idle_counter_at 0)|].
  split; [lia|].
  apply (update_resolves_once_with_final_state (Some recorder) None
           three_steps (counter_at 0) 2);
    [done|exact quiet_three_steps|exact quiet_recorder
    |exact (idle_counter_at 0)|lia].
Defined.

Lemma listener_called_once_per_step_in_order_witness :
  (Some recorder = Some recorder
   /\ quiet_listener (Some recorder)
   /\ isFlushing (this (set_queue (map plain three_steps) (counter_at 0)))
      = false
   /\ Forall (fun it => quiet (mutator it))
             (mutatorsQueue
                (set_queue (map plain three_steps) (counter_at 0)))
   /\ length (mutatorsQueue
                (set_queue (map plain three_steps) (counter_at 0))) < 4
   /\ exists w' tr,
        flush (Some recorder) None 4
              (set_queue (map plain three_steps) (counter_at 0))
        = Ret tt w'
        /\ trace w' = [] ++ tr
        /\ length (listener_calls tr) = 3%nat
        /\ map (fun d => (oldState d, newState d)) (listener_calls tr)
           = [(mkCounter 0, mkCounter 1);
              (mkCounter 1, mkCounter 11);
              (mkCounter 11, mkCounter 111)])
  /\ (mutatorsQueue (counter_at 5) = []
      /\ Forall quiet three_steps
      /\ exists p w' tr,
           update (flush (Some recorder) None 2) three_steps (counter_at 5)
           = Ret p w'
           /\ trace w' = [] ++ tr
           /\ length (listener_calls tr) = 3%nat
           /\ map (fun d => (oldState d, newState d)) (listener_calls tr)
              = [(mkCounter 5, mkCounter 6);
                 (mkCounter 6, mkCounter 16);
                 (mkCounter 16, mkCounter 116)]).
Proof.
  assert (Q : Forall (fun it => quiet (mutator it))
                (mutatorsQueue
                   (set_queue (map plain three_steps) (counter_at 0))))
    by (repeat constructor; apply quiet_assign_count).
  assert (Q' : Forall (fun it : @MutatorQueueItem Counter CPatch =>
                         quiet (mutator it)) [])
    by constructor.
  assert (Q3 : Forall quiet three_steps)
    by (repeat constructor; apply quiet_assign_count).
  split.
  - split; [done|]. split; [exact quiet_recorder|]. split; [done|].
    split; [exact Q|]. split; [simpl; lia|].
    apply (proj1 (listener_called_once_per_step_in_order (Some recorder)
                    None recorder
                    (set_queue (map plain three_steps) (counter_at 0)) 4
                    eq_refl quiet_recorder eq_refl Q
                    ltac:(simpl; lia))).
  - split; [done|]. split; [exact Q3|].
    apply (proj2 (listener_called_once_per_step_in_order (Some recorder)
                    None recorder (counter_at 5) 2
                    eq_refl quiet_recorder eq_refl Q'
                    ltac:(simpl; lia))
             three_steps eq_refl Q3 ltac:(lia)).
Defined.


Lemma step_effects_in_order_witness :
  Some recorder = Some recorder
  /\ quiet (mutator (completing 0 (set_count 5)))
  /\ quiet_listener (Some recorder)
  /\ exists w',
       iteration (Some recorder) None (flush (Some recorder) None 1)
                 (completing 0 (set_count 5)) (snd (pDefer (counter_at 0)))
       = Ret tt w'
       /\ state (this w') = mkCounter 5
       /\ trace w'
          = [EvCreate (mkCounter 0) (mkCounter 0) true;
             EvListen (mkListenData (mkCounter 5) (mkCounter 0)
                         [mkPatch "replace"%string ["count"%string] 5]);
             EvAssign (mkCounter 5);
             EvResolve 0 (mkCounter 5);
             EvSetState (mkCounter 5)].
Proof.
  split; [done|]. split; [apply quiet_assign_count|].
  split; [exact quiet_recorder|].
  apply (step_effects_in_order (Some recorder) None
           (flush (Some recorder) None 1) recorder
           (completing 0 (set_count 5)) (snd (pDefer (counter_at 0)))
           eq_refl (quiet_assign_count _) quiet_recorder).
Defined.

Lemma useStore_outside_connect_throws_witness :
  hasProvider (ContextBase (mkCounter 0)) = false
  /\ useStore (Patch := CPatch) None None (ContextBase (mkCounter 0))
     = inl usage_error.
Proof.
  split; [reflexivity|].
  apply (proj1 (proj2 (useStore_outside_connect_throws
                         (Value (mkCounter 0)) None None))).
  reflexivity.
Defined.

Lemma producer_evaluated_at_construction_and_first_renders_witness :
  exists w',
    script counter_producer None None 2
           [DoMount; DoRender 0; DoUpdate [add_count 1]; DoRender 0;
            DoMount; DoRender 1]
           (createStore counter_producer) = Some w'
    /\ reads w' = expected_reads counter_producer (hooks w')
    /\ reads w' = 3.
Proof.
  eexists. split; [vm_compute; reflexivity|]. split; [|reflexivity].
  apply (proj1 (proj2 (producer_evaluated_at_construction_and_first_renders
                         (Patch := CPatch) counter_producer None None)) 2
           [DoMount; DoRender 0; DoUpdate [add_count 1]; DoRender 0;
            DoMount; DoRender 1]).
  vm_compute. reflexivity.
Defined.

Lemma throwing_mutator_blocks_its_context_witness :
  isFlushing (this (set_queue stuck_queue (counter_at 0))) = false
  /\ mutatorsQueue (set_queue stuck_queue (counter_at 0))
     = [plain (add_count 1)] ++ plain failing :: [plain (add_count 2)]
  /\ Forall (fun it => quiet (mutator it)) [plain (add_count 1)]
  /\ quiet_listener (Some recorder)
  /\ 1 + 1 < 3
  /\ exists w' extra,
       flush (Some recorder) None 3 (set_queue stuck_queue (counter_at 0))
       = Exn w'
       /\ mutatorsQueue w' = [plain (add_count 2)] ++ extra
       /\ map mutator extra = []
       /\ Draining w'
       /\ state (this w') = mkCounter 1
       /\ length (engine_calls (trace w')) = 0 + 1 + 1
       /\ forall later fuel',
            exists w'' added,
              script (Value (mkCounter 0)) (Some recorder) None (S fuel')
                     (map DoUpdate later) w' = Some w''
              /\ mutatorsQueue w'' = mutatorsQueue w' ++ added
              /\ map mutator added = concat later
              /\ Draining w''
              /\ state (this w'') = state (this w')
              /\ trace w'' = trace w'.
Proof.
  assert (Q : Forall (fun it => quiet (mutator it)) [plain (add_count 1)])
    by (repeat constructor; apply quiet_assign_count).
  split; [reflexivity|]. split; [reflexivity|]. split; [exact Q|].
  split; [exact quiet_recorder|]. split; [lia|].
  apply (throwing_mutator_blocks_its_context (Value (mkCounter 0))
           (Some recorder) None [plain (add_count 1)] (plain failing)
           [plain (add_count 2)] [] (set_queue stuck_queue (counter_at 0)) 3
           eq_refl eq_refl Q quiet_recorder eq_refl ltac:(simpl; lia)).
Defined.

Lemma update_without_mutators_never_settles_witness :
  allocated (counter_at 0)
  /\ exists w',
       update (flush None None 0) [] (counter_at 0)
       = Ret (length (promises (counter_at 0))) w'
       /\ mutatorsQueue w' = mutatorsQueue (counter_at 0)
       /\ this w' = this (counter_at 0)
       /\ trace w' = trace (counter_at 0)
       /\ promises w' = promises (counter_at 0) ++ [Pending]
       /\ forall fuel' ops w'',
            script (Value (mkCounter 0)) None None fuel' ops w' = Some w'' ->
            promises w'' !! length (promises (counter_at 0)) = Some Pending.
Proof.
  assert (A : allocated (counter_at 0)) by constructor.
  split; [exact A|].
  apply (update_without_mutators_never_settles (Value (mkCounter 0)) None
           None (counter_at 0) 0 A).
Defined.

(** ** Counterexamples *)

(** C4 as stated has the new state handed to [setState] before the promise
    is resolved.  On [update(d => { d.count = 5 })] the one [resolve] comes
    before the one [setState], and no [setState] before a [resolve]. *)
Lemma setState_does_not_precede_resolve :
  exists w',
    update (flush (Some recorder) None 2) [set_count 5] (counter_at 0)
    = Ret 0 w'
    /\ trace w'
       = [EvCreate (mkCounter 0) (mkCounter 0) true;
          EvListen (mkListenData (mkCounter 5) (mkCounter 0)
                      [mkPatch "replace"%string ["count"%string] 5]);
          EvAssign (mkCounter 5);
          EvResolve 0 (mkCounter 5);
          EvSetState (mkCounter 5)]
    /\ precedes is_setState is_resolve (trace w') = false
    /\ precedes is_resolve is_setState (trace w') = true.
Proof.
  eexists. split; [vm_compute; reflexivity|]. by vm_compute.
Qed.

(** C8 as stated has a producer evaluated once for good.  Mounting and
    rendering the connected component evaluates it a second time. *)
Lemma producer_evaluated_again_at_first_render :
  ~ @evaluated_once Counter CPatch counter_producer None None.
Proof.
  intros H.
  assert (E : exists w',
             script counter_producer None None 0 [DoMount; DoRender 0]
                    (createStore (Patch := CPatch) counter_producer)
             = Some w'
             /\ reads w' = 2).
  { eexists. split; [vm_compute; reflexivity|]. reflexivity. }
  destruct E as (w' & E & R). apply H in E. rewrite E in R. discriminate R.
Qed.

(** C9 as stated has every later [update] blocked.  After
    [update(d => { d.count += 1 }, failing)] has thrown, the component
    renders again with the state the first step set, and an [update] made
    through the context object of that render is applied. *)
Lemma later_render_unblocks_updates :
  exists w',
    update (flush None None 2) [add_count 1; failing] (counter_at 0) = Exn w'
    /\ Draining w'
    /\ ~ never_applied_after (Value (mkCounter 0)) None None w'
    /\ exists w'',
         script (Value (mkCounter 0)) None None 2
                [DoRender 0; DoUpdate [add_count 10]] w' = Some w''
         /\ state (this w'') = mkCounter 11
         /\ promises w'' !! 1 = Some (Fulfilled (mkCounter 11)).
Proof.
  eexists. split; [vm_compute; reflexivity|].
  split; [reflexivity|].
  assert (X : exists w'',
             script (Value (mkCounter 0)) None None 2
                    [DoRender 0; DoUpdate [add_count 10]]
                    (mkWorld (mkContext (mkCounter 1) true (Dispatch 0) true)
                             [] [Pending] [Some (mkCounter 1)] 0
                             [EvCreate (mkCounter 0) (mkCounter 0) true;
                              EvAssign (mkCounter 1);
                              EvSetState (mkCounter 1);
                              EvCreate (mkCounter 1) (mkCounter 1) true]
                             [ContextBase (mkCounter 0)])
             = Some w''
             /\ length (engine_calls (trace w'')) = 3
             /\ state (this w'') = mkCounter 11
             /\ promises w'' !! 1 = Some (Fulfilled (mkCounter 11))).
  { eexists. split; [vm_compute; reflexivity|]. by vm_compute. }
  destruct X as (w'' & E & L & ES & EP). split.
  - intros H. apply H in E. rewrite E in L. vm_compute in L. discriminate L.
  - by exists w''.
Qed.


(** C6 as stated has non-empty patches for every step that performs a
    write in diagnostic mode.  With [APP_ENV] unset (not production) and a
    listener supplied, [update(d => { d.count = d.count })] performs a
    write, and so does [update(d => { d.count = 8; d.count = 7 })] on
    [{ count: 7 }]; both steps leave the state as it was, the engine
    reports no change and the listener gets an empty [patches]. *)
Lemma same_value_write_yields_no_patch :
  (None : option string) <> Some "production"%string
  /\ performs_write (fun d _ => [d]) (mkCounter 7)
  /\ performs_write (fun _ _ => [8; 7]%Z) (mkCounter 7)
  /\ (exists w',
        update (flush (Some recorder) None 2)
               [assigning (fun d _ => [d])] (counter_at 7)
        = Ret 0%nat w'
        /\ listener_calls (trace w')
           = [mkListenData (mkCounter 7) (mkCounter 7) []]
        /\ engine_calls (trace w') = [(mkCounter 7, mkCounter 7, true)])
  /\ (exists w',
        update (flush (Some recorder) None 2)
               [assigning (fun _ _ => [8; 7]%Z)] (counter_at 7)
        = Ret 0%nat w'
        /\ listener_calls (trace w')
           = [mkListenData (mkCounter 7) (mkCounter 7) []]
        /\ engine_calls (trace w') = [(mkCounter 7, mkCounter 7, true)]).
Proof.
  split; [done|]. split; [done|]. split; [done|].
  split; eexists; (split; [vm_compute; reflexivity|]); by split.
Qed.

(** * Further properties of [flush], [update] and [connect] *)

Section Further.

Context {State Patch : Type}.
Variable initialState : @Initial State.
Variable listen : option (@Listener State Patch).
Variable APP_ENV : option string.

Implicit Types (w : @World State Patch) (m : @Mutator State Patch).
Implicit Types (item it : @MutatorQueueItem State Patch).
Implicit Types (ms : list (@Mutator State Patch)).
Implicit Types (s : State).
Implicit Types (tr : list (@Event State Patch)).

(** ** A listener that throws *)

Lemma iteration_listener_raises fr l item w :
  listen = Some l ->
  quiet (mutator item) ->
  (forall d, l d = Raises []) ->
  iteration listen APP_ENV fr item w
  = Exn (log (EvListen
                (mkListenData
                   (apply_mutator (state (this w)) (mutator item))
                   (state (this w))
                   (if negb (production APP_ENV)
                    then writes_of (state (this w)) (mutator item)
                    else [])))
             (log (EvCreate (state (this w)) (state (this w))
                            (negb (production APP_ENV))) w)).
Proof.
  intros EL Q R. unfold iteration, create, apply_mutator, writes_of.
  destruct (Q (state (this w)) (state (this w))) as (d & ws & ->).
  destruct (production APP_ENV); simpl; unfold call_listen;
    rewrite EL, R; reflexivity.
Qed.

(** X1. When the listener throws, the exception leaves [flush]; the step
    has left the queue and the engine has run, but [this.state] keeps the
    old state, the step's promise is not resolved, [setState] is not
    called, and the context is left with [isFlushing] set. *)
Theorem throwing_listener_loses_the_step l item rest w fuel :
  listen = Some l ->
  (forall d, l d = Raises []) ->
  quiet (mutator item) ->
  isFlushing (this w) = false ->
  mutatorsQueue w = item :: rest ->
  2 <= fuel ->
  exists w',
    flush listen APP_ENV fuel w = Exn w'
    /\ state (this w') = state (this w)
    /\ promises w' = promises w
    /\ hooks w' = hooks w
    /\ mutatorsQueue w' = rest
    /\ Draining w'
    /\ setState_calls (trace w') = setState_calls (trace w)
    /\ resolve_log 0 (trace w') = resolve_log 0 (trace w)
    /\ length (listener_calls (trace w'))
       = S (length (listener_calls (trace w))).
Proof.
  intros EL R Q E EQ LE. destruct fuel as [|[|fuel]]; [lia|lia|].
  rewrite flush_idle by done. unfold drain. cbn [while]. rewrite EQ.
  rewrite (iteration_listener_raises _ l) by done. cbn [bind].
  eexists. split; [reflexivity|]. cbn [log set_queue set_isFlushing set_this
    this state promises hooks mutatorsQueue trace isFlushing].
  repeat (split; [done|]).
  split; [|split].
  - unfold setState_calls. rewrite !omap_app. simpl. by rewrite !app_nil_r.
  - rewrite !resolve_log_app. simpl. by rewrite !app_nil_r.
  - unfold listener_calls. rewrite !omap_app, !length_app. simpl. lia.
Qed.

(** ** A mutator that throws in the middle of a batch *)

Lemma forEach_app fr ms1 ms2 : forall len idx dp w,
  forEach fr len idx (ms1 ++ ms2) dp w
  = bind (forEach fr len idx ms1 dp w)
         (fun _ => forEach fr len (idx + length ms1) ms2 dp).
Proof.
  induction ms1 as [|m ms1 IH]; intros len idx dp w; simpl.
  - by rewrite Nat.add_0_r.
  - destruct (if Nat.eqb idx (len - 1) then _ else _) as [[] w'|w'|];
      simpl; try done.
    rewrite IH. by replace (S idx + length ms1)
      with (idx + S (length ms1)) by lia.
Qed.

(** The entries before the last index carry no promise. *)
Lemma items_of_plain ms : forall len idx dp,
  idx + length ms < len ->
  items_of len idx ms dp = map plain ms.
Proof.
  induction ms as [|m ms IH]; intros len idx dp LT; simpl; [done|].
  simpl in LT.
  destruct (Nat.eqb_spec idx (len - 1)) as [E|_]; [lia|].
  rewrite IH by lia. done.
Qed.

(** X2. When a mutator of a batch throws, the mutators before it have been
    applied, the ones after it in the same [update] call are never put in
    the queue, the promise of the call stays pending, and the context keeps
    [isFlushing] set. *)
Theorem throwing_mutator_drops_rest_of_batch prefix m tail w fuel :
  Idle w ->
  Forall quiet prefix ->
  quiet_listener listen ->
  run m (foldl apply_mutator (state (this w)) prefix)
        (foldl apply_mutator (state (this w)) prefix) = Throws [] ->
  2 <= fuel ->
  exists w',
    update (flush listen APP_ENV fuel) (prefix ++ m :: tail) w = Exn w'
    /\ mutatorsQueue w' = []
    /\ Draining w'
    /\ state (this w') = foldl apply_mutator (state (this w)) prefix
    /\ promises w' !! length (promises w) = Some Pending
    /\ length (engine_calls (trace w'))
       = length (engine_calls (trace w)) + length prefix + 1.
Proof.
  intros I QS QL T LE. destruct fuel as [|[|fuel]]; [lia|lia|].
  set (p := length (promises w)).
  set (w1 := set_promises (promises w ++ [Pending]) w).
  set (len := length (prefix ++ m :: tail)).
  assert (I1 : Idle w1) by (destruct I; by split).
  assert (EP : items_of len 0 prefix p = map plain prefix).
  { apply items_of_plain. unfold len. rewrite length_app. simpl. lia. }
  set (W := foldl (applied listen APP_ENV) w1 (map plain prefix)).
  assert (IW : Idle W) by (by apply foldl_applied_idle).
  assert (SW : state (this W) = foldl apply_mutator (state (this w)) prefix).
  { unfold W. by rewrite foldl_applied_state, map_mutator_plain. }
  assert (EA : forall o,
             add (flush listen APP_ENV (S (S fuel))) m o W
             = Exn (log (EvCreate (state (this W)) (state (this W))
                                  (negb (production APP_ENV)))
                        (set_queue [] (set_isFlushing true W)))).
  { intros o. unfold add. rewrite flush_idle by apply IW. unfold drain.
    rewrite (while_throws (State := State) listen APP_ENV skip_flush
               skip_flush_guard [] (S fuel) (push (mkItem m o) W)
               (mkItem m o) [] []); simpl; try done; try lia.
    - destruct IW as [_ ->]. done.
    - by rewrite SW. }
  exists (log (EvCreate (state (this W)) (state (this W))
                        (negb (production APP_ENV)))
              (set_queue [] (set_isFlushing true W))).
  split; [|split; [done|split; [done|split; [exact SW|split]]]].
  - unfold update, pDefer. fold p w1 len. rewrite forEach_app.
    rewrite forEach_idle_quiet by done. rewrite EP. fold W. cbn [bind forEach].
    destruct (Nat.eqb _ _); by rewrite EA.
  - simpl. unfold W. rewrite foldl_applied_promises_plain. simpl.
    by apply list_lookup_middle.
  - simpl. unfold W. rewrite foldl_applied_trace.
    rewrite !engine_calls_app, !length_app, engine_calls_events.
    simpl. rewrite length_map. lia.
Qed.

(** ** The promises of an [update] whose mutator calls [update] *)

Lemma conclude_promises item s' ps w :
  promises (conclude listen item s' ps w)
  = match deferredPromise item with
    | Some p => settle p s' (promises w)
    | None => promises w
    end.
Proof.
  unfold conclude, call_setState. simpl.
  destruct listen, (deferredPromise item); simpl;
    by destruct (setState (this w)).
Qed.

Lemma conclude_enqueue_all_trace item s' ps calls w :
  trace (conclude listen item s' ps (enqueue_all calls w))
  = trace (conclude listen item s' ps w).
Proof.
  unfold conclude, call_setState. simpl. rewrite !enqueue_all_this.
  destruct listen, (deferredPromise item); simpl;
    rewrite ?enqueue_all_this; destruct (setState (this w)); simpl;
    by rewrite enqueue_all_trace.
Qed.

Lemma resolve_log_batch ms : forall n s q,
  ms <> [] ->
  resolve_log n (events listen APP_ENV s (items_of (length ms) 0 ms q))
  = [(n + length ms, q, foldl apply_mutator s ms)].
Proof.
  destruct ms as [|m ms _] using rev_ind; intros n s q NE; [done|].
  rewrite length_app. simpl.
  replace (length ms + 1) with (0 + S (length ms)) by lia.
  rewrite items_of_last, events_app, resolve_log_app.
  rewrite resolve_log_events_plain, engine_calls_events, length_map.
  rewrite map_mutator_plain, events_cons. cbn [events app].
  rewrite app_nil_r, resolve_log_step_completing, foldl_app. simpl.
  by replace (S (n + length ms)) with (n + S (length ms)) by lia.
Qed.

Lemma promises_batch ms : forall w q,
  ms <> [] ->
  promises (foldl (applied listen APP_ENV) w (items_of (length ms) 0 ms q))
  = settle q (foldl apply_mutator (state (this w)) ms) (promises w).
Proof.
  destruct ms as [|m ms _] using rev_ind; intros w q NE; [done|].
  rewrite length_app. simpl.
  replace (length ms + 1) with (0 + S (length ms)) by lia.
  rewrite items_of_last, foldl_app. cbn [foldl].
  rewrite applied_promises. cbn [completing deferredPromise mutator].
  rewrite foldl_applied_promises_plain, foldl_applied_state.
  by rewrite map_mutator_plain, foldl_app.
Qed.

(** The world an [update] of one re-entering mutator ends in. *)
Lemma update_reentrant_world m d ws ms2 w fuel :
  Idle w -> quiet_listener listen ->
  run m (state (this w)) (state (this w)) = Returns d ws [ms2] ->
  Forall quiet ms2 ->
  length ms2 + 2 <= fuel ->
  update (flush listen APP_ENV fuel) [m] w
  = Ret (length (promises w))
        (at_rest
           (foldl (applied listen APP_ENV)
              (conclude listen (completing (length (promises w)) m) d
                 (if negb (production APP_ENV) then ws else [])
                 (enqueue_all [ms2]
                    (log (EvCreate (state (this w)) (state (this w))
                                   (negb (production APP_ENV)))
                       (set_queue []
                          (set_isFlushing true
                             (set_promises (promises w ++ [Pending]) w))))))
              (items_of (length ms2) 0 ms2 (S (length (promises w)))))).
Proof.
  intros [IF IQ] QL E QS LE.
  destruct fuel as [|[|fuel]]; [lia|lia|].
  unfold update, pDefer. cbn [forEach length Nat.sub Nat.eqb]. unfold add.
  rewrite flush_idle by done.
  unfold drain. cbn [while]. unfold push at 1. cbn [mutatorsQueue set_queue
    set_promises]. rewrite IQ. cbn [app].
  rewrite (iteration_returns listen APP_ENV skip_flush skip_flush_guard
             _ _ d ws [ms2]); [|done|done|exact E].
  cbn [bind].
  match goal with
  | |- context [while _ _ _ _ ?W] => set (w1 := W)
  end.
  assert (EQ1 : mutatorsQueue w1
                = items_of (length ms2) 0 ms2 (S (length (promises w)))).
  { unfold w1. rewrite conclude_queue. simpl.
    rewrite length_app. simpl.
    by replace (length (promises w) + 1) with (S (length (promises w)))
      by lia. }
  rewrite (while_quiet listen APP_ENV skip_flush (mutatorsQueue w1));
    try done.
  - cbn [bind]. rewrite EQ1. reflexivity.
  - rewrite EQ1. by apply quiet_items_of.
  - rewrite EQ1, length_items_of. lia.
Qed.

(** X3. When the mutator of [update(m)] itself calls [update(...ms2)], the
    outer promise is resolved first, with the state right after [m], and
    the inner promise is resolved after the steps of [ms2], with the final
    state: the outer caller does not get the state the call leaves
    behind. *)
Theorem reentrant_update_promises m d ws ms2 w fuel :
  Idle w -> quiet_listener listen ->
  run m (state (this w)) (state (this w)) = Returns d ws [ms2] ->
  Forall quiet ms2 -> ms2 <> [] ->
  length ms2 + 2 <= fuel ->
  exists w' tr,
    update (flush listen APP_ENV fuel) [m] w = Ret (length (promises w)) w'
    /\ promises w' !! length (promises w) = Some (Fulfilled d)
    /\ promises w' !! S (length (promises w))
       = Some (Fulfilled (foldl apply_mutator d ms2))
    /\ state (this w') = foldl apply_mutator d ms2
    /\ trace w' = trace w ++ tr
    /\ resolve_log 0 tr
       = [(1, length (promises w), d);
          (1 + length ms2, S (length (promises w)),
           foldl apply_mutator d ms2)].
Proof.
  intros I QL E QS NE LE.
  assert (Ed : apply_mutator (state (this w)) m = d)
    by (unfold apply_mutator; by rewrite E).
  assert (Ew : writes_of (state (this w)) m = ws)
    by (unfold writes_of; by rewrite E).
  set (p := length (promises w)). set (s := state (this w)) in *.
  set (it := completing p m).
  eexists _, (step_events listen APP_ENV s it
              ++ events listen APP_ENV d (items_of (length ms2) 0 ms2 (S p))).
  split; [by apply update_reentrant_world|].
  fold p s it.
  set (W0 := set_queue [] (set_isFlushing true
                (set_promises (promises w ++ [Pending]) w))).
  assert (EPL : ((promises w ++ [Pending]) ++ [Pending]) !! p = Some Pending).
  { rewrite <- app_assoc. by apply list_lookup_middle. }
  assert (EPS : ((promises w ++ [Pending]) ++ [Pending]) !! S p
                = Some Pending).
  { apply list_lookup_middle. rewrite length_app. simpl. unfold p. lia. }
  assert (LP : p < length ((promises w ++ [Pending]) ++ [Pending])).
  { rewrite !length_app. simpl. unfold p. lia. }
  assert (EP1 : promises
                  (conclude listen it d
                     (if negb (production APP_ENV) then ws else [])
                     (enqueue_all [ms2] (log (EvCreate s s
                        (negb (production APP_ENV))) W0)))
                = <[p := Fulfilled d]>
                    ((promises w ++ [Pending]) ++ [Pending])).
  { rewrite conclude_promises. cbn [it completing deferredPromise].
    simpl. unfold settle. by rewrite EPL. }
  split; [|split; [|split; [|split]]].
  - change (promises (at_rest ?X)) with (promises X).
    rewrite promises_batch by done.
    rewrite EP1. unfold settle.
    rewrite list_lookup_insert_ne by lia. rewrite EPS.
    rewrite list_lookup_insert_ne by lia.
    by apply list_lookup_insert_eq.
  - change (promises (at_rest ?X)) with (promises X).
    rewrite promises_batch by done.
    rewrite EP1, conclude_state. unfold settle.
    rewrite list_lookup_insert_ne by lia. rewrite EPS.
    apply list_lookup_insert_eq. rewrite length_insert.
    rewrite !length_app. simpl. unfold p. lia.
  - rewrite at_rest_state, foldl_applied_state, conclude_state.
    by rewrite items_of_mutators.
  - rewrite at_rest_trace, foldl_applied_trace, conclude_state.
    rewrite conclude_enqueue_all_trace, app_assoc. f_equal.
    rewrite <- Ed, <- Ew.
    change (trace (applied listen APP_ENV W0 it)
            = trace w ++ step_events listen APP_ENV s it).
    by rewrite applied_trace.
  - rewrite resolve_log_app, engine_calls_step.
    unfold it. rewrite resolve_log_step_completing, Ed.
    rewrite resolve_log_batch by done. done.
Qed.

(** ** The listener and the patch mode do not act on the store *)

Lemma applied_same_store (listen' : option (@Listener State Patch))
    (APP_ENV' : option string) w1 w2 item :
  same_store w1 w2 ->
  same_store (applied listen APP_ENV w1 item)
             (applied listen' APP_ENV' w2 item).
Proof.
  destruct w1 as [c1 q1 p1 h1 r1 t1 o1], w2 as [c2 q2 p2 h2 r2 t2 o2].
  unfold same_store. simpl. intros (-> & -> & -> & -> & -> & ->).
  unfold applied, conclude, call_setState. simpl.
  destruct listen, listen', (deferredPromise item); simpl;
    destruct (setState c2); done.
Qed.

Lemma foldl_applied_same_store (listen' : option (@Listener State Patch))
    (APP_ENV' : option string) items : forall w1 w2,
  same_store w1 w2 ->
  same_store (foldl (applied listen APP_ENV) w1 items)
             (foldl (applied listen' APP_ENV') w2 items).
Proof.
  induction items as [|it items IH]; intros w1 w2 S; simpl; [done|].
  apply IH. by apply applied_same_store.
Qed.

(** X4. A listener that returns and issues no [update] of its own, and
    the choice of [APP_ENV], change nothing but what is reported: the same
    [update] of mutators that return and issue no [update] either, made on
    an idle context, once with such a listener and once with another such
    listener (or none) and another [APP_ENV], returns the same promise and
    leaves the same context, queue, promises and component state. *)
Theorem listener_and_patch_mode_do_not_change_the_store
    (listen' : option (@Listener State Patch)) (APP_ENV' : option string)
    ms w fuel :
  Idle w -> Forall quiet ms ->
  quiet_listener listen -> quiet_listener listen' ->
  2 <= fuel ->
  exists w1 w2,
    update (flush listen APP_ENV fuel) ms w = Ret (length (promises w)) w1
    /\ update (flush listen' APP_ENV' fuel) ms w
       = Ret (length (promises w)) w2
    /\ same_store w1 w2.
Proof.
  intros I QS QL QL' LE. destruct fuel as [|[|fuel]]; [lia|lia|].
  eexists _, _. split; [by apply update_idle_quiet|].
  split; [by apply update_idle_quiet|].
  apply foldl_applied_same_store. by repeat split.
Qed.

(** ** The component state follows the context *)

Lemma applied_setState w item :
  setState (this (applied listen APP_ENV w item)) = setState (this w).
Proof.
  unfold applied, conclude, call_setState. simpl.
  destruct listen, (deferredPromise item); simpl;
    by destruct (setState (this w)) eqn:E.
Qed.

Lemma applied_hooks i w item :
  setState (this w) = Dispatch i ->
  hooks (applied listen APP_ENV w item)
  = <[i := Some (apply_mutator (state (this w)) (mutator item))]> (hooks w).
Proof.
  intros E. unfold applied, conclude, call_setState. simpl.
  destruct listen, (deferredPromise item); simpl; by rewrite E.
Qed.

Lemma applied_reads w item : reads (applied listen APP_ENV w item) = reads w.
Proof.
  unfold applied, conclude, call_setState. simpl.
  destruct listen, (deferredPromise item); simpl;
    by destruct (setState (this w)).
Qed.

Lemma applied_in_sync i w item :
  in_sync i w -> in_sync i (applied listen APP_ENV w item).
Proof.
  intros [ES EH]. split.
  - by rewrite applied_setState.
  - rewrite (applied_hooks i) by done. rewrite applied_state.
    apply list_lookup_insert_eq. by apply lookup_lt_Some in EH.
Qed.

Lemma foldl_applied_in_sync i items : forall w,
  in_sync i w -> in_sync i (foldl (applied listen APP_ENV) w items).
Proof.
  induction items as [|it items IH]; intros w S; simpl; [done|].
  apply IH. by apply applied_in_sync.
Qed.

Lemma foldl_applied_reads items : forall w,
  reads (foldl (applied listen APP_ENV) w items) = reads w.
Proof.
  induction items as [|it items IH]; intros w; simpl; [done|].
  by rewrite IH, applied_reads.
Qed.

Lemma setState_calls_app tr1 tr2 :
  setState_calls (tr1 ++ tr2) = setState_calls tr1 ++ setState_calls tr2.
Proof. apply omap_app. Qed.

Lemma setState_calls_step s item :
  setState_calls (step_events listen APP_ENV s item)
  = [apply_mutator s (mutator item)].
Proof. unfold step_events. by destruct listen, (deferredPromise item). Qed.

Lemma setState_calls_events items : forall s,
  setState_calls (events listen APP_ENV s items)
  = states_after s (map mutator items).
Proof.
  induction items as [|it items IH]; intros s; [done|].
  rewrite events_cons, setState_calls_app, setState_calls_step, IH. done.
Qed.

(** X5. [setState] is called once per step, not once per [update], with
    the state after that step; so when the context in use is the one a
    render of instance [i] built, the component's cell holds the context's
    state after the call, and the next render and [useStore] give back the
    state the promise was resolved with, having evaluated no producer. *)
Theorem setState_per_step_and_rerender_sees_result i ms w fuel :
  in_sync i w -> Idle w -> Forall quiet ms -> quiet_listener listen ->
  2 <= fuel ->
  exists w' tr h,
    update (flush listen APP_ENV fuel) ms w = Ret (length (promises w)) w'
    /\ trace w' = trace w ++ tr
    /\ setState_calls tr = states_after (state (this w)) ms
    /\ in_sync i w'
    /\ state (this w') = foldl apply_mutator (state (this w)) ms
    /\ useStore listen APP_ENV (this (render initialState i w')) = inr h
    /\ handle_state h = foldl apply_mutator (state (this w)) ms
    /\ isFlushing (this (render initialState i w')) = false
    /\ reads (render initialState i w') = reads w.
Proof.
  intros S I QS QL LE. destruct fuel as [|[|fuel]]; [lia|lia|].
  set (items := items_of (length ms) 0 ms (length (promises w))).
  set (w' := foldl (applied listen APP_ENV)
                   (set_promises (promises w ++ [Pending]) w) items).
  assert (S' : in_sync i w') by (by apply foldl_applied_in_sync).
  assert (ES : state (this w') = foldl apply_mutator (state (this w)) ms).
  { unfold w', items. by rewrite foldl_applied_state, items_of_mutators. }
  assert (ER : render initialState i w'
               = set_others (others w' ++ [this w'])
                   (set_this (mkContext (state (this w')) true (Dispatch i)
                                        false) w')).
  { unfold render. destruct S' as [_ ->]. done. }
  exists w', (events listen APP_ENV (state (this w)) items),
         (mkHandle (state (this w'))
                   (fun fuel => update (flush listen APP_ENV fuel))).
  split; [by apply update_idle_quiet|].
  split; [unfold w'; by rewrite foldl_applied_trace|].
  split; [unfold items; by rewrite setState_calls_events, items_of_mutators|].
  split; [exact S'|]. split; [exact ES|]. rewrite ER.
  split; [done|]. split; [exact ES|]. split; [done|].
  simpl. unfold w'. by rewrite foldl_applied_reads.
Qed.

(** ** Several connected components of one store *)

(** What a render of instance [j] shows depends on its cell only. *)
Lemma render_state_by_cell j w1 w2 :
  hooks w1 !! j = hooks w2 !! j ->
  this w1 = this w2 ->
  state (this (render initialState j w1))
  = state (this (render initialState j w2)).
Proof.
  intros EH ET. unfold render. rewrite EH.
  destruct (hooks w2 !! j) as [[s|]|]; simpl; [done| |by rewrite ET].
  unfold stateReader. by destruct initialState.
Qed.

(** X6. An [update] made through the context of one connected component,
    where the [update] calls that mutators and listener make themselves go
    through the closure of that same context object, calls that
    component's [setState] only: the cell of any other instance of the
    same store is left as it is, whether the user code returns or throws,
    so the other component still renders its old state.  (User code that
    holds the [update] closure of the other component and calls it reaches
    that component's [setState]; this is [flush_via], not [flush].) *)
Theorem update_leaves_other_components_alone j fuel ms w :
  setState (this w) <> Dispatch j ->
  holds (fun w' => hooks w' !! j = hooks w !! j
                   /\ setState (this w') = setState (this w))
        (update (flush listen APP_ENV fuel) ms w).
Proof.
  intros NE.
  apply (update_flush_holds listen APP_ENV
           (fun w' => hooks w' !! j = hooks w !! j
                      /\ setState (this w') = setState (this w))
           (fun _ => True)); try done.
  intros w' s [EH ES]. unfold call_setState.
  destruct (setState (this w')) as [|i] eqn:E; simpl; rewrite E; [done|].
  split; [|done]. rewrite list_lookup_insert_ne; [done|].
  intros ->. apply NE. by rewrite <- ES.
Qed.

(** ** Steps left in the queue *)

Lemma foldl_applied_at_rest items w :
  foldl (applied listen APP_ENV) (at_rest w) items
  = at_rest (foldl (applied listen APP_ENV) w items).
Proof.
  unfold at_rest.
  by rewrite foldl_applied_set_queue, foldl_applied_set_isFlushing.
Qed.

Lemma forEach_flag_clear fuel m ms : forall len idx dp w,
  isFlushing (this w) = false ->
  Forall (fun it => quiet (mutator it)) (mutatorsQueue w) ->
  Forall quiet (m :: ms) ->
  quiet_listener listen ->
  length (mutatorsQueue w) + 2 <= fuel ->
  forEach (flush listen APP_ENV fuel) len idx (m :: ms) dp w
  = Ret tt (at_rest (foldl (applied listen APP_ENV) w
                           (mutatorsQueue w ++ items_of len idx (m :: ms) dp))).
Proof.
  intros len idx dp w E QQ QS QL LE.
  inversion QS as [|? ? Q1 Q2]; subst.
  destruct fuel as [|[|fuel]]; [lia|lia|].
  assert (EA : forall o,
             add (flush listen APP_ENV (S (S fuel))) m o w
             = Ret tt (at_rest (foldl (applied listen APP_ENV) w
                                      (mutatorsQueue w ++ [mkItem m o])))).
  { intros o. unfold add. rewrite flush_quiet_queue; try done.
    - unfold push. cbn [mutatorsQueue set_queue].
      by rewrite foldl_applied_set_queue, at_rest_set_queue.
    - unfold push. cbn [mutatorsQueue set_queue].
      apply Forall_app. split; [done|]. by constructor.
    - unfold push. cbn [mutatorsQueue set_queue].
      rewrite length_app. simpl. lia. }
  cbn [forEach items_of].
  set (o := if Nat.eqb idx (len - 1) then Some dp else None).
  replace (if Nat.eqb idx (len - 1)
           then add (flush listen APP_ENV (S (S fuel))) m (Some dp) w
           else add (flush listen APP_ENV (S (S fuel))) m None w)
    with (add (flush listen APP_ENV (S (S fuel))) m o w)
    by (unfold o; by destruct (Nat.eqb idx (len - 1))).
  rewrite EA. cbn [bind].
  rewrite forEach_idle_quiet by done.
  by rewrite foldl_applied_at_rest, <- foldl_app, <- app_assoc.
Qed.

(** X7. Steps that are still in the shared queue when a component renders
    again (left there by a drain that an exception ended) are applied by
    the first non-empty [update] made through the new context, before that
    call's own steps and starting from the state the component renders. *)
Theorem queued_steps_run_before_next_update i s m ms w fuel :
  hooks w !! i = Some (Some s) ->
  Forall (fun it => quiet (mutator it)) (mutatorsQueue w) ->
  Forall quiet (m :: ms) ->
  quiet_listener listen ->
  length (mutatorsQueue w) + 2 <= fuel ->
  exists w' tr,
    update (flush listen APP_ENV fuel) (m :: ms) (render initialState i w)
    = Ret (length (promises w)) w'
    /\ state (this w')
       = foldl apply_mutator s (map mutator (mutatorsQueue w) ++ m :: ms)
    /\ trace w' = trace w ++ tr
    /\ length (engine_calls tr)
       = length (mutatorsQueue w) + length (m :: ms)
    /\ Idle w'.
Proof.
  intros EH QQ QS QL LE.
  assert (ER : render initialState i w
               = set_others (others w ++ [this w])
                   (set_this (mkContext s true (Dispatch i) false) w)).
  { unfold render. by rewrite EH. }
  rewrite ER. unfold update, pDefer.
  cbn [promises set_this set_others set_promises].
  rewrite forEach_flag_clear; try done.
  cbn [bind mutatorsQueue set_promises set_this].
  eexists _, _. split; [reflexivity|].
  split; [|split; [|split]].
  - rewrite at_rest_state, foldl_applied_state, map_app.
    by rewrite items_of_mutators.
  - by rewrite at_rest_trace, foldl_applied_trace.
  - rewrite engine_calls_events, length_app, length_items_of. done.
  - by split.
Qed.

(** ** A listener that calls [update] on every notification *)

Lemma iteration_echo l m item w :
  listen = Some l ->
  (forall d, l d = Completes [[m]]) ->
  quiet (mutator item) ->
  Draining w ->
  exists w2 p,
    iteration listen APP_ENV skip_flush item w = Ret tt w2
    /\ mutatorsQueue w2 = mutatorsQueue w ++ [completing p m].
Proof.
  intros EL R Q D. unfold iteration, create.
  destruct (Q (state (this w)) (state (this w))) as (d & ws & ->).
  destruct (production APP_ENV); simpl; unfold call_listen;
    rewrite EL, R;
    rewrite (reenter_draining skip_flush skip_flush_guard) by done;
    simpl; eexists _, _; (split; [reflexivity|]);
    unfold call_setState; simpl;
    destruct (deferredPromise item); simpl;
    destruct (setState (this w)); reflexivity.
Qed.

Lemma drain_echo l m n : forall w,
  listen = Some l ->
  (forall d, l d = Completes [[m]]) ->
  quiet m ->
  mutatorsQueue w <> [] ->
  Forall (fun it => quiet (mutator it)) (mutatorsQueue w) ->
  drain listen APP_ENV n w = Fuel.
Proof.
  unfold drain.
  induction n as [|n IH]; intros w EL R Q NE QQ; simpl;
    destruct (mutatorsQueue w) as [|item rest] eqn:EQ; try done.
  apply Forall_cons in QQ as [Q1 Q2].
  destruct (iteration_echo l m item
              (set_queue rest (set_isFlushing true w)) EL R Q1 eq_refl)
    as (w2 & p & -> & EQ2).
  simpl. apply IH; try done.
  - rewrite EQ2. simpl. by destruct rest.
  - rewrite EQ2. simpl. apply Forall_app. split; [done|]. by constructor.
Qed.

(** X8. Nothing bounds the loop of [flush]: with a listener that calls
    [update] on every notification each step puts another step in the
    queue, and a [flush] that starts on a non-empty queue does not return,
    whatever the fuel. *)
Theorem echoing_listener_never_lets_flush_return l m w fuel :
  listen = Some l ->
  (forall d, l d = Completes [[m]]) ->
  quiet m ->
  isFlushing (this w) = false ->
  mutatorsQueue w <> [] ->
  Forall (fun it => quiet (mutator it)) (mutatorsQueue w) ->
  flush listen APP_ENV fuel w = Fuel.
Proof.
  intros EL R Q E NE QQ. destruct fuel as [|fuel]; [done|].
  rewrite flush_idle by done. by apply (drain_echo l m).
Qed.

(** ** [useStore] under [connect], and the promises of successive calls *)

(** X9. A component returned by [connect], mounted and rendered for the
    first time, provides a context through which [useStore] succeeds and
    hands out the initial state: the literal, or what the producer returns;
    that context is not flushing and shares the store's queue. *)
Theorem useStore_inside_connect_returns_initial_state w :
  exists h,
    useStore listen APP_ENV
             (this (render initialState (fst (mount w)) (snd (mount w))))
    = inr h
    /\ handle_state h
       = match initialState with Value s => s | Producer f => f tt end
    /\ isFlushing (this (render initialState (fst (mount w)) (snd (mount w))))
       = false
    /\ mutatorsQueue (render initialState (fst (mount w)) (snd (mount w)))
       = mutatorsQueue w.
Proof.
  unfold mount, render. cbn [fst snd hooks set_hooks].
  rewrite list_lookup_middle by done.
  unfold useState, stateReader.
  destruct initialState; simpl; eexists; repeat split.
Qed.

Lemma update_returns_fresh fr ms w p w' :
  update fr ms w = Ret p w' -> p = length (promises w).
Proof.
  unfold update, pDefer.
  destruct (forEach _ _ _ _ _ _) as [[] w1|w1|]; simpl; [|done|done].
  by intros [= <- _].
Qed.

Lemma update_grows_promises fuel ms w :
  holds (fun w' => length (promises w) < length (promises w'))
        (update (flush listen APP_ENV fuel) ms w).
Proof.
  unfold update, pDefer. apply holds_bind; [|by intros].
  assert (I : forall w1,
             length (promises w) < length (promises w1) ->
             holds (fun w' => length (promises w) < length (promises w'))
                   (flush listen APP_ENV fuel w1)).
  { intros w1 L.
    apply (flush_holds listen APP_ENV
             (fun w' => length (promises w) < length (promises w'))
             (fun _ => True)); try done.
    - intros w2 L2. simpl. rewrite length_app. simpl. split; [lia|done].
    - intros w2 q v L2 _. simpl. unfold settle.
      destruct (promises w2 !! q) as [[]|]; try done.
      by rewrite length_insert.
    - intros w2 s L2. unfold call_setState.
      by destruct (setState (this w2)). }
  apply (forEach_holds
           (fun w' => length (promises w) < length (promises w'))
           (fun _ => True)); try done.
  simpl. rewrite length_app. simpl. lia.
Qed.

(** X10. Every [update] call gets a promise of its own: whatever the
    mutators and the listener of the first call did, and whether it
    returned or threw, a later call returns a different promise. *)
Theorem successive_updates_return_distinct_promises
    fuel1 fuel2 ms1 ms2 w p1 w1 p2 w2 :
  update (flush listen APP_ENV fuel1) ms1 w = Ret p1 w1 ->
  update (flush listen APP_ENV fuel2) ms2 w1 = Ret p2 w2 ->
  p1 < p2.
Proof.
  intros E1 E2.
  pose proof (update_grows_promises fuel1 ms1 w) as G. rewrite E1 in G.
  apply update_returns_fresh in E1, E2. simpl in G. lia.
Qed.

(** ** Several [update] calls from inside one mutator *)

Lemma quiet_items_by_mutators (items : list (@MutatorQueueItem State Patch)) :
  Forall quiet (map mutator items) ->
  Forall (fun it => quiet (mutator it)) items.
Proof.
  induction items as [|it items IH]; simpl; intros H; [done|].
  apply Forall_cons in H as [H1 H2]. constructor; [done|]. by apply IH.
Qed.

Lemma quiet_concat (calls : Calls (@Mutator State Patch)) :
  Forall (Forall quiet) calls -> Forall quiet (concat calls).
Proof.
  induction calls as [|ms calls IH]; simpl; intros H; [done|].
  apply Forall_cons in H as [H1 H2]. apply Forall_app. split; [done|].
  by apply IH.
Qed.

(** X11. The [update] calls a mutator makes while it runs are served in
    the order they were made, each call's steps in its own order and
    without interleaving, after the step that made them and before the
    outer [update] returns. *)
Theorem reentrant_calls_run_in_call_order m d ws calls w fuel :
  Idle w -> quiet_listener listen ->
  run m (state (this w)) (state (this w)) = Returns d ws calls ->
  Forall (Forall quiet) calls ->
  length (concat calls) + 2 <= fuel ->
  exists w' tr,
    update (flush listen APP_ENV fuel) [m] w = Ret (length (promises w)) w'
    /\ state (this w') = foldl apply_mutator d (concat calls)
    /\ trace w' = trace w ++ tr
    /\ map (fun c => snd (fst c)) (engine_calls tr)
       = state (this w) :: states_before d (concat calls)
    /\ Idle w'.
Proof.
  intros [IF IQ] QL E QS LE.
  assert (Ed : apply_mutator (state (this w)) m = d)
    by (unfold apply_mutator; by rewrite E).
  assert (Ew : writes_of (state (this w)) m = ws)
    by (unfold writes_of; by rewrite E).
  destruct fuel as [|[|fuel]]; [lia|lia|].
  unfold update, pDefer. cbn [forEach length Nat.sub Nat.eqb]. unfold add.
  rewrite flush_idle by done.
  unfold drain. cbn [while]. unfold push at 1. cbn [mutatorsQueue set_queue
    set_promises]. rewrite IQ. cbn [app].
  rewrite (iteration_returns listen APP_ENV skip_flush skip_flush_guard
             _ _ d ws calls); [|done|done|exact E].
  cbn [bind].
  set (it := mkItem m (Some (length (promises w)))).
  set (W0 := set_queue [] (set_isFlushing true
               (push it (set_promises (promises w ++ [Pending]) w)))).
  match goal with
  | |- context [while _ _ _ _ ?W] => set (w1 := W)
  end.
  destruct (enqueue_all_mutators calls
              (log (EvCreate (state (this W0)) (state (this W0))
                             (negb (production APP_ENV))) W0))
    as (added & EA & EM).
  assert (EQ1 : mutatorsQueue w1 = added).
  { unfold w1. rewrite conclude_queue. exact EA. }
  assert (ET : trace w1
               = trace w ++ step_events listen APP_ENV (state (this w)) it).
  { unfold w1. rewrite conclude_enqueue_all_trace.
    rewrite <- Ed, <- Ew.
    change (trace (applied listen APP_ENV W0 it)
            = trace w ++ step_events listen APP_ENV (state (this w)) it).
    by rewrite applied_trace. }
  assert (QA : Forall (fun it => quiet (mutator it)) added).
  { apply quiet_items_by_mutators. rewrite EM. by apply quiet_concat. }
  assert (LA : length added = length (concat calls))
    by (by rewrite <- EM, length_map).
  rewrite (while_quiet listen APP_ENV skip_flush added); try done; [|lia].
  cbn [bind]. eexists _, _. split; [reflexivity|].
  split; [|split; [|split]].
  - rewrite at_rest_state, foldl_applied_state. unfold w1.
    by rewrite conclude_state, EM.
  - rewrite at_rest_trace, foldl_applied_trace, ET, <- app_assoc.
    reflexivity.
  - rewrite engine_calls_app, engine_calls_step, engine_calls_events_args.
    unfold w1 at 1. rewrite conclude_state, EM.
    simpl. rewrite map_map. simpl. by rewrite map_id.
  - by split.
Qed.

(** ** A nested [update] through another context object *)

Lemma iteration_with_calls fr item w d ws calls w1 :
  quiet_listener listen ->
  run (mutator item) (state (this w)) (state (this w)) = Returns d ws calls ->
  reenter fr calls
          (log (EvCreate (state (this w)) (state (this w))
                         (negb (production APP_ENV))) w)
  = Ret tt w1 ->
  iteration listen APP_ENV fr item w
  = Ret tt (conclude listen item d
              (if negb (production APP_ENV) then ws else []) w1).
Proof.
  intros QL E ER. unfold iteration, create. rewrite E.
  destruct (production APP_ENV); simpl in *; rewrite ER; simpl;
    unfold call_listen, conclude; destruct listen as [l|] eqn:EL; simpl;
    rewrite ?(QL l _ eq_refl); simpl; by destruct (deferredPromise item).
Qed.

Lemma conclude_others item s' ps w :
  others (conclude listen item s' ps w) = others w.
Proof.
  unfold conclude, call_setState.
  by destruct listen, (deferredPromise item), (setState _).
Qed.

Lemma overlapping_events s items tail :
  items <> [] ->
  overlapping true (events listen APP_ENV s items ++ tail) = true.
Proof.
  destruct items as [|it items]; [done|]. intros _.
  rewrite events_cons. unfold step_events. reflexivity.
Qed.

(** X12. A mutator that, while it runs in an [update] made through the
    context object in use, calls the [update] closure of another context
    object of the store which is idle (the one of an earlier render, or of
    another connected component): the steps of the nested call are applied
    at once by a second loop, on the state of that other object, inside
    the iteration of the first loop; the outer step then overwrites the
    state of the context in use with its own draft, so the nested steps
    leave no mark on it. *)
Theorem nested_update_through_other_context_runs_second_loop
    k c m d ws ms2 w fuel :
  Idle w -> others w !! k = Some c -> isFlushing c = false ->
  quiet_listener listen ->
  run m (state (this w)) (state (this w)) = Returns d ws [ms2] ->
  Forall quiet ms2 ->
  exists w' c' tr,
    update (flush_via listen APP_ENV k (S (S fuel))) [m] w
    = Ret (length (promises w)) w'
    /\ state (this w') = d
    /\ others w' !! k = Some c'
    /\ state c' = foldl apply_mutator (state c) ms2
    /\ trace w' = trace w ++ tr
    /\ length (engine_calls tr) = 1 + length ms2
    /\ (ms2 <> [] -> overlapping false tr = true)
    /\ Idle w'.
Proof.
  intros [IF IQ] EK FC QL E QS.
  unfold update at 1, pDefer. cbn [forEach length Nat.sub Nat.eqb].
  unfold add, flush_via.
  set (it := mkItem m (Some (length (promises w)))).
  set (wp := set_promises (promises w ++ [Pending]) w).
  assert (EF : isFlushing (this (push it wp)) = false) by exact IF.
  rewrite EF. cbn [while].
  assert (EQ : mutatorsQueue (push it wp) = [it])
    by (unfold push, wp; simpl; by rewrite IQ).
  rewrite EQ.
  set (w0 := log (EvCreate (state (this w)) (state (this w))
                           (negb (production APP_ENV)))
                 (set_queue [] (set_isFlushing true (push it wp)))).
  destruct (forEach_foreign_idle listen APP_ENV k fuel ms2 (length ms2) 0
              (length (promises w0)) c
              (set_promises (promises w0 ++ [Pending]) w0)
              EK FC eq_refl QS QL)
    as (w2 & c2 & EU & T2 & MQ2 & O2 & F2 & S2 & TR2).
  rewrite (iteration_with_calls _ it _ d ws [ms2] w2); [|done|exact E|].
  2:{ change (bind (update (flush_of listen APP_ENV k (S (S fuel))) ms2 w0)
                   (fun _ w1 => Ret tt w1) = Ret tt w2).
      unfold update, pDefer. rewrite EU. done. }
  cbn [bind].
  set (ps := if negb (production APP_ENV) then ws else []).
  rewrite conclude_queue, MQ2. cbn [bind].
  destruct (conclude_trace listen it d ps w2) as (tail & ETR & EC).
  eexists _, c2, _. split; [reflexivity|].
  split; [apply conclude_state|].
  split; [cbn [others set_isFlushing set_this]; by rewrite conclude_others|].
  split; [done|]. split.
  { cbn [trace set_isFlushing set_this]. rewrite ETR, TR2.
    cbn [trace set_promises w0 log]. rewrite <- !app_assoc.
    reflexivity. }
  split.
  { rewrite !engine_calls_app, !length_app, engine_calls_events,
      length_items_of, EC. simpl. lia. }
  split.
  { intros NE. cbn [app overlapping orb].
    apply overlapping_events. intros EI.
    apply (f_equal length) in EI. rewrite length_items_of in EI.
    by destruct ms2. }
  split; [done|]. cbn [mutatorsQueue set_isFlushing set_this].
  by rewrite conclude_queue.
Qed.

End Further.

Lemma throwing_listener_loses_the_step_witness :
  Some grumpy = Some grumpy
  /\ (forall d, grumpy d = Raises [])
  /\ quiet (mutator (completing 0 (set_count 5)))
  /\ isFlushing (this (push (completing 0 (set_count 5))
                            (snd (pDefer (counter_at 0))))) = false
  /\ 2 <= 2
  /\ exists w',
       flush (Some grumpy) None 2
             (push (completing 0 (set_count 5)) (snd (pDefer (counter_at 0))))
       = Exn w'
       /\ state (this w') = mkCounter 0
       /\ promises w' = [Pending]
       /\ hooks w' = [Some (mkCounter 0)]
       /\ mutatorsQueue w' = []
       /\ Draining w'
       /\ setState_calls (trace w') = []
       /\ resolve_log 0 (trace w') = []
       /\ length (listener_calls (trace w')) = 1.
Proof.
  split; [done|]. split; [done|]. split; [apply quiet_assign_count|].
  split; [done|]. split; [lia|].
  apply (throwing_listener_loses_the_step (Some grumpy) None grumpy
           (completing 0 (set_count 5)) []
           (push (completing 0 (set_count 5)) (snd (pDefer (counter_at 0))))
           2 eq_refl (fun _ => eq_refl) (quiet_assign_count _) eq_refl
           eq_refl ltac:(lia)).
Defined.

Lemma throwing_mutator_drops_rest_of_batch_witness :
  Idle (counter_at 0)
  /\ Forall quiet [add_count 1]
  /\ quiet_listener (Some recorder)
  /\ 2 <= 2
  /\ exists w',
       update (flush (Some recorder) None 2)
              ([add_count 1] ++ failing :: [add_count 100]) (counter_at 0)
       = Exn w'
       /\ mutatorsQueue w' = []
       /\ Draining w'
       /\ state (this w') = mkCounter 1
       /\ promises w' !! 0 = Some Pending
       /\ length (engine_calls (trace w')) = 0 + 1 + 1.
Proof.
  assert (Q : Forall quiet [add_count 1])
    by (repeat constructor; apply quiet_assign_count).
  split; [exact (idle_counter_at 0)|]. split; [exact Q|].
  split; [exact quiet_recorder|]. split; [lia|].
  apply (throwing_mutator_drops_rest_of_batch (Some recorder) None
           [add_count 1] failing [add_count 100] (counter_at 0) 2
           (idle_counter_at 0) Q quiet_recorder eq_refl ltac:(lia)).
Defined.

Lemma reentrant_update_promises_witness :
  Idle (counter_at 0)
  /\ quiet_listener (Some recorder)
  /\ Forall quiet [add_count 1; add_count 2]
  /\ [add_count 1; add_count 2] <> []
  /\ 2 + 2 <= 4
  /\ exists w' tr,
       update (flush (Some recorder) None 4)
              [reentering 5 [add_count 1; add_count 2]] (counter_at 0)
       = Ret 0 w'
       /\ promises w' !! 0 = Some (Fulfilled (mkCounter 5))
       /\ promises w' !! 1 = Some (Fulfilled (mkCounter 8))
       /\ state (this w') = mkCounter 8
       /\ trace w' = trace (counter_at 0) ++ tr
       /\ resolve_log 0 tr
          = [(1, 0, mkCounter 5); (3, 1, mkCounter 8)].
Proof.
  assert (Q : Forall quiet [add_count 1; add_count 2])
    by (repeat constructor; apply quiet_assign_count).
  split; [exact (idle_counter_at 0)|]. split; [exact quiet_recorder|].
  split; [exact Q|]. split; [done|]. split; [lia|].
  apply (reentrant_update_promises (Some recorder) None
           (reentering 5 [add_count 1; add_count 2]) (mkCounter 5)
           [mkPatch "replace"%string ["count"%string] 5]
           [add_count 1; add_count 2] (counter_at 0) 4
           (idle_counter_at 0) quiet_recorder eq_refl Q
           ltac:(done) ltac:(simpl; lia)).
Defined.

Lemma listener_and_patch_mode_do_not_change_the_store_witness :
  Idle (counter_at 0)
  /\ Forall quiet three_steps
  /\ quiet_listener (Some recorder)
  /\ @quiet_listener Counter CPatch None
  /\ 2 <= 2
  /\ exists w1 w2,
       update (flush (Some recorder) None 2) three_steps (counter_at 0)
       = Ret (length (promises (counter_at 0))) w1
       /\ update (flush None (Some "production"%string) 2) three_steps
                 (counter_at 0)
          = Ret (length (promises (counter_at 0))) w2
       /\ same_store w1 w2.
Proof.
  assert (QN : @quiet_listener Counter CPatch None) by (by intros l d).
  split; [exact (idle_counter_at 0)|]. split; [exact quiet_three_steps|].
  split; [exact quiet_recorder|]. split; [exact QN|]. split; [lia|].
  apply (listener_and_patch_mode_do_not_change_the_store (Some recorder) None
           None (Some "production"%string) three_steps (counter_at 0) 2
           (idle_counter_at 0) quiet_three_steps quiet_recorder QN
           ltac:(lia)).
Defined.

Lemma setState_per_step_and_rerender_sees_result_witness :
  in_sync 0 (counter_at 0)
  /\ Idle (counter_at 0)
  /\ Forall quiet three_steps
  /\ quiet_listener (Some recorder)
  /\ 2 <= 2
  /\ exists w' tr h,
       update (flush (Some recorder) None 2) three_steps (counter_at 0)
       = Ret (length (promises (counter_at 0))) w'
       /\ trace w' = trace (counter_at 0) ++ tr
       /\ setState_calls tr = [mkCounter 1; mkCounter 11; mkCounter 111]
       /\ in_sync 0 w'
       /\ state (this w') = mkCounter 111
       /\ useStore (Some recorder) None
                   (this (render (Value (mkCounter 0)) 0 w')) = inr h
       /\ handle_state h = mkCounter 111
       /\ isFlushing (this (render (Value (mkCounter 0)) 0 w')) = false
       /\ reads (render (Value (mkCounter 0)) 0 w') = reads (counter_at 0).
Proof.
  assert (S : in_sync 0 (counter_at 0)) by (by split).
  split; [exact S|]. split; [exact (idle_counter_at 0)|].
  split; [exact quiet_three_steps|]. split; [exact quiet_recorder|].
  split; [lia|].
  apply (setState_per_step_and_rerender_sees_result (Value (mkCounter 0))
           (Some recorder) None 0 three_steps (counter_at 0) 2
           S (idle_counter_at 0) quiet_three_steps quiet_recorder
           ltac:(lia)).
Defined.

Lemma update_leaves_other_components_alone_witness :
  setState (this (render (Value (mkCounter 0)) 1
                         (snd (mount (counter_at 0))))) <> Dispatch 0
  /\ holds (fun w' => hooks w' !! 0 = Some (Some (mkCounter 0))
                      /\ setState (this w') = Dispatch 1)
           (update (flush None None 2) three_steps
                   (render (Value (mkCounter 0)) 1
                           (snd (mount (counter_at 0))))).
Proof.
  split; [discriminate|].
  apply (update_leaves_other_components_alone None None 0 2 three_steps
           (render (Value (mkCounter 0)) 1 (snd (mount (counter_at 0))))
           ltac:(discriminate)).
Defined.

Lemma queued_steps_run_before_next_update_witness :
  hooks (set_queue [plain (add_count 2)] (counter_at 1)) !! 0
  = Some (Some (mkCounter 1))
  /\ Forall (fun it => quiet (mutator it))
            (mutatorsQueue (set_queue [plain (add_count 2)] (counter_at 1)))
  /\ Forall quiet [add_count 10]
  /\ quiet_listener (Some recorder)
  /\ 1 + 2 <= 3
  /\ exists w' tr,
       update (flush (Some recorder) None 3) [add_count 10]
              (render (Value (mkCounter 0)) 0
                      (set_queue [plain (add_count 2)] (counter_at 1)))
       = Ret 0 w'
       /\ state (this w') = mkCounter 13
       /\ trace w' = [] ++ tr
       /\ length (engine_calls tr) = 1 + 1
       /\ Idle w'.
Proof.
  assert (Q : Forall (fun it : @MutatorQueueItem Counter CPatch =>
                        quiet (mutator it)) [plain (add_count 2)])
    by (repeat constructor; apply quiet_assign_count).
  assert (Q1 : Forall quiet [add_count 10])
    by (repeat constructor; apply quiet_assign_count).
  split; [reflexivity|]. split; [exact Q|]. split; [exact Q1|].
  split; [exact quiet_recorder|]. split; [lia|].
  apply (queued_steps_run_before_next_update (Value (mkCounter 0))
           (Some recorder) None 0 (mkCounter 1) (add_count 10) []
           (set_queue [plain (add_count 2)] (counter_at 1)) 3
           eq_refl Q Q1 quiet_recorder ltac:(simpl; lia)).
Defined.

Lemma echoing_listener_never_lets_flush_return_witness :
  Some echo = Some echo
  /\ (forall d, echo d = Completes [[add_count 1]])
  /\ quiet (add_count 1)
  /\ isFlushing (this (push (plain (set_count 5)) (counter_at 0))) = false
  /\ mutatorsQueue (push (plain (set_count 5)) (counter_at 0)) <> []
  /\ Forall (fun it => quiet (mutator it))
            (mutatorsQueue (push (plain (set_count 5)) (counter_at 0)))
  /\ flush (Some echo) None 1000 (push (plain (set_count 5)) (counter_at 0))
     = Fuel.
Proof.
  assert (Q : Forall (fun it : @MutatorQueueItem Counter CPatch =>
                        quiet (mutator it))
                (mutatorsQueue (push (plain (set_count 5)) (counter_at 0))))
    by (repeat constructor; apply quiet_assign_count).
  split; [done|]. split; [done|]. split; [apply quiet_assign_count|].
  split; [done|]. split; [done|]. split; [exact Q|].
  apply (echoing_listener_never_lets_flush_return (Some echo) None echo
           (add_count 1) (push (plain (set_count 5)) (counter_at 0)) 1000
           eq_refl (fun _ => eq_refl) (quiet_assign_count _) eq_refl
           ltac:(done) Q).
Defined.

Lemma successive_updates_return_distinct_promises_witness :
  exists w1 w2,
    update (flush None None 2) [set_count 5] (counter_at 0) = Ret 0 w1
    /\ update (flush None None 2) [set_count 6] w1 = Ret 1 w2
    /\ 0 < 1.
Proof.
  eexists _, _. split; [vm_compute; reflexivity|].
  split; [vm_compute; reflexivity|].
  eapply (successive_updates_return_distinct_promises None None 2 2
            [set_count 5] [set_count 6] (counter_at 0));
    vm_compute; reflexivity.
Defined.

Lemma reentrant_calls_run_in_call_order_witness :
  Idle (counter_at 0)
  /\ quiet_listener (Some recorder)
  /\ Forall (Forall quiet) [[add_count 1]; [set_count 7; add_count 2]]
  /\ 3 + 2 <= 5
  /\ exists w' tr,
       update (flush (Some recorder) None 5)
              [Mut (fun _ _ =>
                      Returns (mkCounter 5) []
                              [[add_count 1]; [set_count 7; add_count 2]])]
              (counter_at 0)
       = Ret 0 w'
       /\ state (this w') = mkCounter 9
       /\ trace w' = [] ++ tr
       /\ map (fun c => snd (fst c)) (engine_calls tr)
          = [mkCounter 0; mkCounter 5; mkCounter 6; mkCounter 7]
       /\ Idle w'.
Proof.
  assert (Q : Forall (Forall quiet)
                ([[add_count 1]; [set_count 7; add_count 2]]
                 : list (list (@Mutator Counter CPatch))))
    by (repeat constructor; apply quiet_assign_count).
  split; [exact (idle_counter_at 0)|]. split; [exact quiet_recorder|].
  split; [exact Q|]. split; [lia|].
  apply (reentrant_calls_run_in_call_order (Some recorder) None
           (Mut (fun _ _ =>
                   Returns (mkCounter 5) []
                           [[add_count 1]; [set_count 7; add_count 2]]))
           (mkCounter 5) []
           [[add_count 1]; [set_count 7; add_count 2]] (counter_at 0) 5
           (idle_counter_at 0) quiet_recorder eq_refl Q
           ltac:(simpl; lia)).
Defined.

Lemma nested_update_through_other_context_runs_second_loop_witness :
  Idle rendered_twice
  /\ others rendered_twice !! 1%nat
     = Some (mkContext (mkCounter 0) true (Dispatch 0) false)
  /\ quiet_listener (Some recorder)
  /\ Forall quiet [add_count 1; add_count 2]
  /\ exists w' c' tr,
       update (flush_via (Some recorder) None 1 2)
              [reentering 5 [add_count 1; add_count 2]] rendered_twice
       = Ret 0%nat w'
       /\ state (this w') = mkCounter 5
       /\ others w' !! 1%nat = Some c'
       /\ state c' = mkCounter 3
       /\ trace w' = [] ++ tr
       /\ length (engine_calls tr) = 3%nat
       /\ ([add_count 1; add_count 2] <> [] -> overlapping false tr = true)
       /\ Idle w'.
Proof.
  assert (Q : Forall quiet [add_count 1; add_count 2])
    by (repeat constructor; apply quiet_assign_count).
  split; [by split|]. split; [reflexivity|].
  split; [exact quiet_recorder|]. split; [exact Q|].
  apply (nested_update_through_other_context_runs_second_loop
           (Some recorder) None 1%nat
           (mkContext (mkCounter 0) true (Dispatch 0) false)
           (reentering 5 [add_count 1; add_count 2]) (mkCounter 5)
           [mkPatch "replace"%string ["count"%string] 5]
           [add_count 1; add_count 2] rendered_twice 0%nat
           (conj eq_refl eq_refl) eq_refl eq_refl quiet_recorder eq_refl Q).
Defined.
